(** * LengthBiasCGP: the benchmark problems of [problems.py]

    A shallow embedding of the problem classes ([Bounded_Problem],
    [Binary_Multiply], [Breadth], [Depth], [Flat], [Active]) and of the two
    domain generators ([binary_range], [single_bit_set]), followed by the
    properties the specification states about them.

    Conventions of the embedding (the program is Python 2: [/] on two
    integers is floor division, [map] returns a list):
    - Python integers are [Z]; Python floats are exact rationals [Qc]
      (rounding is not modelled); [True]/[False] are the integers 1/0, as
      they are in Python arithmetic.
    - Python [str] values are [list ascii].
    - A raised exception is the [Raise] constructor of [result].
    - A configuration dictionary is a [gmap string value].
    - An individual is an external object; only [evaluate], [genes] and
      [active] are read, and [evaluate] is a pure function.
    - A constructor runs in a state monad whose state is the trace of the
      calls made so far, so that the order of table computation and key
      lookup can be stated; a method runs in the same monad with the
      instance as its state, so that "does not modify" can be stated. *)

From Stdlib Require Import ZArith QArith Qcanon Qcabs Ascii String DecimalString.
From stdpp Require Import base numbers option list gmap strings sorting.

Local Open Scope Z_scope.

(** ** Exceptions and results *)

Inductive exn : Type :=
  | KeyError (key : string)
  | ValueError
  | TypeError
  | IndexError
  | ZeroDivisionError
  | NotImplementedError.

Inductive result (A : Type) : Type :=
  | Ok (a : A)
  | Raise (e : exn).
Arguments Ok {A} a.
Arguments Raise {A} e.

Global Instance result_ret : MRet result := λ A, Ok.
Global Instance result_bind : MBind result := λ A B f m,
  match m with
  | Ok a => f a
  | Raise e => Raise e
  end.

(** [map(f, xs)] for an [f] that may raise: left to right, the first
    exception aborts the whole map. *)
Fixpoint map_result {A B : Type} (f : A → result B) (xs : list A)
  : result (list B) :=
  match xs with
  | [] => Ok []
  | x :: rest =>
      y ← f x;
      ys ← map_result f rest;
      Ok (y :: ys)
  end.

(** ** Numbers and configurations *)

Inductive value : Type :=
  | Int (z : Z)
  | Float (q : Qc).

(** [float(v)] *)
Definition to_float (v : value) : Qc :=
  match v with
  | Int z => Qc_of_Z z
  | Float q => q
  end.

(** An argument that must be an integer ([range], [repeat=], [ljust]). *)
Definition as_int (v : value) : result Z :=
  match v with
  | Int z => Ok z
  | Float _ => Raise TypeError
  end.

(** [config[key]] *)
Definition getitem (config : gmap string value) (key : string) : result value :=
  match config !! key with
  | Some v => Ok v
  | None => Raise (KeyError key)
  end.

(** ** Python string helpers *)

Definition len {A : Type} (s : list A) : Z := Z.of_nat (length s).

(** [s.rjust(width, fill)] *)
Definition rjust (width : Z) (fill : ascii) (s : list ascii) : list ascii :=
  replicate (Z.to_nat (width - len s)) fill ++ s.

(** [s.ljust(width, fill)] *)
Definition ljust (width : Z) (fill : ascii) (s : list ascii) : list ascii :=
  s ++ replicate (Z.to_nat (width - len s)) fill.

(** [str(z)] for an integer: its decimal numeral. *)
Definition str (z : Z) : list ascii :=
  list_ascii_of_string (NilZero.string_of_int (Z.to_int z)).

(** The value of a digit character in base [base], if it is one. *)
Definition digit_value (base : Z) (c : ascii) : option Z :=
  let d := Z.of_nat (nat_of_ascii c) - 48 in
  if bool_decide (0 ≤ d < 10 ∧ d < base) then Some d else None.

Fixpoint digits_value (base : Z) (acc : Z) (s : list ascii) : result Z :=
  match s with
  | [] => Ok acc
  | c :: rest =>
      match digit_value base c with
      | Some d => digits_value base (base * acc + d) rest
      | None => Raise ValueError
      end
  end.

(** [int(s, base)] on the strings that reach it here: an optional sign
    followed by at least one digit of the base (base at most 10). *)
Definition int_of_str (base : Z) (s : list ascii) : result Z :=
  match s with
  | [] => Raise ValueError
  | "-"%char :: [] | "+"%char :: [] => Raise ValueError
  | "-"%char :: rest => v ← digits_value base 0 rest; Ok (- v)
  | "+"%char :: rest => digits_value base 0 rest
  | _ => digits_value base 0 s
  end.

(** [int(c)] for a one-character string, as [map(int, s)] applies it. *)
Definition int_of_char (c : ascii) : result Z := int_of_str 10 [c].

(** Binary digits of a positive number, most significant first. *)
Fixpoint bin_digits (p : positive) : list ascii :=
  match p with
  | xH => ["1"%char]
  | xO q => bin_digits q ++ ["0"%char]
  | xI q => bin_digits q ++ ["1"%char]
  end.

(** [bin(z)] *)
Definition bin (z : Z) : list ascii :=
  match z with
  | Z0 => ["0"; "b"; "0"]%char
  | Zpos p => ["0"; "b"]%char ++ bin_digits p
  | Zneg p => ["-"; "0"; "b"]%char ++ bin_digits p
  end.

(** ** Domain generators *)

(** [itertools.product(pool, repeat=n)], after the equivalent code of the
    Python documentation:
<<
    result = [[]]
    for pool in pools:
        result = [x+[y] for x in result for y in pool]
>> *)
Definition product_step (pool : list Z) (acc : list (list Z)) : list (list Z) :=
  x ← acc; y ← pool; [x ++ [y]].

Fixpoint product_pools (pools : list (list Z)) (acc : list (list Z))
  : list (list Z) :=
  match pools with
  | [] => acc
  | pool :: rest => product_pools rest (product_step pool acc)
  end.

Definition product (pool : list Z) (repeat : Z) : result (list (list Z)) :=
  if bool_decide (repeat < 0) then Raise ValueError
  else Ok (product_pools (replicate (Z.to_nat repeat) pool) [[]]).

(** [range(n)] *)
Definition range (n : Z) : list Z := seqZ 0 n.

Definition binary_range (config : gmap string value) : result (list (list Z)) :=
  v ← getitem config "input_length";
  n ← as_int v;
  product [0; 1] n.

Definition single_bit_set (config : gmap string value) : result (list (list Z)) :=
  v ← getitem config "input_length";
  n ← as_int v;
  map_result
    (λ i, w ← getitem config "input_length";
          width ← as_int w;
          map_result int_of_char
            (ljust width "0" (rjust (i + 1) "0" ["1"%char])))
    (range n).

(** ** Individuals (external; only read) *)

Record Individual : Type := {
  evaluate : list Z → list Qc;
  genes : list (option Z);
  active : gset nat;
}.

(** ** State and exceptions

    Code that reads or writes an object, or that leaves a trace, runs in
    [M S]: it takes the current state and gives the next one with either
    a value or an exception. *)

Definition M (S A : Type) : Type := S → S * result A.

Global Instance M_ret {S} : MRet (M S) := λ A a s, (s, Ok a).
Global Instance M_bind {S} : MBind (M S) := λ A B f m s,
  match m s with
  | (s', Ok a) => f a s'
  | (s', Raise e) => (s', Raise e)
  end.

Definition get {S} : M S S := λ s, (s, Ok s).
Definition lift {S A} (r : result A) : M S A := λ s, (s, r).

Fixpoint map_M {S A B : Type} (f : A → M S B) (xs : list A) : M S (list B) :=
  match xs with
  | [] => mret []
  | x :: rest =>
      y ← f x;
      ys ← map_M f rest;
      mret (y :: ys)
  end.

(** ** Arithmetic of fitness values *)

Local Open Scope Qc_scope.

(** [x / y] on floats *)
Definition py_div (x y : Qc) : result Qc :=
  if bool_decide (y = 0) then Raise ZeroDivisionError else Ok (x / y).

(** [sum(xs)]: adds from the left, starting at 0. *)
Definition py_sum (xs : list Qc) : Qc := foldl Qcplus 0 xs.

(** [float(abs(answer - output) > epsilon)] *)
Definition miss (epsilon answer : Qc) (output : Z) : Qc :=
  if bool_decide (epsilon < Qcabs (answer - Qc_of_Z output)) then 1 else 0.

Local Close Scope Qc_scope.

(** ** Bounded_Problem and its two subclasses *)

Inductive variant : Type := Binary_Multiply | Breadth.

Record Bounded_Problem : Type := {
  cls : variant;
  config : gmap string value;
  training : list (list Z * list Z);
  epsilon : value;
}.

(** What construction does before it returns or raises. *)
Inductive event : Type :=
  | Call_data_range
  | Call_problem_function (inputs : list Z).

Definition log (e : event) : M (list event) unit := λ t, (t ++ [e], Ok ()).

Definition Binary_Multiply_problem_function (inputs : list Z) : result (list Z) :=
  let joined := concat (str <$> inputs) in
  let middle := len joined `div` 2 in
  let a := take (Z.to_nat middle) joined in
  let b := drop (Z.to_nat middle) joined in
  x ← int_of_str 2 a;
  y ← int_of_str 2 b;
  let multiplied := drop 2 (bin (x * y)) in
  let extended := rjust (len inputs) "0" multiplied in
  map_result int_of_char extended.

(** [[sum(inputs) > 0]]; the boolean is the integer 1 or 0. *)
Definition Breadth_problem_function (inputs : list Z) : result (list Z) :=
  Ok [if bool_decide (0 < foldl Z.add 0 inputs) then 1 else 0].

Definition problem_function (c : variant) : list Z → result (list Z) :=
  match c with
  | Binary_Multiply => Binary_Multiply_problem_function
  | Breadth => Breadth_problem_function
  end.

Definition data_range (c : variant) : gmap string value → result (list (list Z)) :=
  match c with
  | Binary_Multiply => binary_range
  | Breadth => single_bit_set
  end.

(** One element of the list comprehension of [__init__]:
    [(inputs, self.problem_function(inputs))]. *)
Definition table_entry (c : variant) (inputs : list Z)
  : M (list event) (list Z * list Z) :=
  log (Call_problem_function inputs);;
  outputs ← lift (problem_function c inputs);
  mret (inputs, outputs).

(** [Bounded_Problem.__init__] *)
Definition Bounded_Problem_init (c : variant) (config : gmap string value)
  : M (list event) Bounded_Problem :=
  domain ← (log Call_data_range;; lift (data_range c config));
  training ← map_M (table_entry c) domain;
  epsilon ← lift (getitem config "epsilon");
  mret {| cls := c; config := config; training := training; epsilon := epsilon |}.

(** The body of the [for] loop of [Bounded_Problem.get_fitness], with
    [score] the accumulator. *)
Fixpoint score_loop (individual : Individual) (cases : list (list Z * list Z))
    (score : Qc) : M Bounded_Problem Qc :=
  match cases with
  | [] => mret score
  | (inputs, outputs) :: rest =>
      let answers := evaluate individual inputs in
      self ← get;
      let misses :=
        py_sum ((λ ao, miss (to_float (epsilon self)) ao.1 ao.2)
                  <$> zip answers outputs) in
      error ← lift (py_div misses (Qc_of_Z (len outputs)));
      score_loop individual rest (score + error)%Qc
  end.

(** [Bounded_Problem.get_fitness] *)
Definition get_fitness (individual : Individual) : M Bounded_Problem Qc :=
  self ← get;
  score ← score_loop individual (training self) 0%Qc;
  self ← get;
  average ← lift (py_div score (Qc_of_Z (len (training self))));
  mret (1 - average)%Qc.

(** ** Depth, Flat, Active, Neutral *)

Record Problem : Type := { problem_config : gmap string value }.

(** [Depth.__init__] and [Active.__init__]: only store the configuration. *)
Definition Depth_init (config : gmap string value) : result Problem :=
  Ok {| problem_config := config |}.
Definition Active_init (config : gmap string value) : result Problem :=
  Ok {| problem_config := config |}.

(** [xs[0]] *)
Definition index0 {A} (xs : list A) : result A :=
  match xs with
  | [] => Raise IndexError
  | x :: _ => Ok x
  end.

Definition Depth_get_fitness (self : Problem) (individual : Individual)
  : result Qc :=
  depth ← index0 (evaluate individual [0]);
  g ← getitem (problem_config self) "graph_length";
  py_div depth (to_float g).

Definition Active_get_fitness (self : Problem) (individual : Individual)
  : result Qc :=
  g ← getitem (problem_config self) "graph_length";
  py_div (Qc_of_Z (Z.of_nat (size (active individual)))) (to_float g).

(** The loop of [Flat.get_fitness] over the genes, with the two counters. *)
Fixpoint Flat_loop (genes : list (option Z)) (correct total : Z) : Z * Z :=
  match genes with
  | [] => (correct, total)
  | None :: rest => Flat_loop rest correct total
  | Some gene :: rest =>
      Flat_loop rest (if bool_decide (gene < 0) then correct + 1 else correct)
                (total + 1)
  end.

Definition Flat_get_fitness (individual : Individual) : result Qc :=
  let '(correct, total) := Flat_loop (genes individual) 0 0 in
  py_div (Qc_of_Z correct) (Qc_of_Z total).

Definition Neutral_get_fitness (_ : Individual) : result Qc := Ok 0%Qc.

(** ** Vocabulary of the specification *)

(** A 0/1 value. *)
Definition is_bit (b : Z) : Prop := b = 0 ∨ b = 1.

(** The base-2 integer a bit vector denotes, most significant bit first. *)
Definition int_of_bits (bits : list Z) : Z := foldl (λ acc b, 2 * acc + b) 0 bits.

(** All bit vectors of length [m], as [product] enumerates them. *)
Definition cube (m : nat) : list (list Z) :=
  product_pools (replicate m [0; 1]) [[]].

(** The character of a 0/1 value. *)
Definition bit_char (b : Z) : ascii := if decide (b = 0) then "0"%char else "1"%char.

(** The digit a character 0..9 stands for. *)
Definition bit_of_char (c : ascii) : Z := Z.of_nat (nat_of_ascii c) - 48.

(** The vector with a single 1, at position [i], among [n] positions. *)
Definition one_hot (n i : Z) : list Z :=
  replicate (Z.to_nat i) 0 ++ [1] ++ replicate (Z.to_nat (n - (i + 1))) 0.

(** The number of non-zero positions of a vector. *)
Definition hamming_weight (v : list Z) : nat := length (filter (λ b, b ≠ 0) v).

(** The training table that the list comprehension of
    [Bounded_Problem.__init__] builds over a domain. *)
Definition table (c : variant) (domain : list (list Z))
  : result (list (list Z * list Z)) :=
  map_result (λ inputs, outputs ← problem_function c inputs; Ok (inputs, outputs))
             domain.

(** The output arity of a variant at a given [input_length]. *)
Definition arity (c : variant) (input_length : Z) : Z :=
  match c with
  | Binary_Multiply => input_length
  | Breadth => 1
  end.

(** Position [i] is a miss: both an answer and an expected output exist
    there and they differ by more than [eps]. *)
Definition is_miss (eps : Qc) (answers : list Qc) (outputs : list Z) (i : nat)
  : bool :=
  match answers !! i, outputs !! i with
  | Some a, Some o => bool_decide (eps < Qcabs (a - Qc_of_Z o))%Qc
  | _, _ => false
  end.

(** The number of output positions that are misses. *)
Definition miss_count (eps : Qc) (answers : list Qc) (outputs : list Z) : nat :=
  length (filter (λ i, is_miss eps answers outputs i) (seq 0 (length outputs))).

(** Per-case error: miss count over output arity. *)
Definition case_error (eps : Qc) (individual : Individual)
    (case : list Z * list Z) : Qc :=
  (Qc_of_Z (Z.of_nat (miss_count eps (evaluate individual case.1) case.2))
   / Qc_of_Z (len case.2))%Qc.


Definition sum_Qc (xs : list Qc) : Qc := foldr Qcplus 0%Qc xs.

(** Fitness as the specification words it: one minus the mean per-case
    error. *)
Definition fitness_formula (error : list Z * list Z → Qc) (p : Bounded_Problem)
  : Qc :=
  (1 - sum_Qc (error <$> training p) / Qc_of_Z (len (training p)))%Qc.

(** Every answer of a case is within [eps] of the expected output. *)
Definition within_epsilon (eps : Qc) (answers : list Qc) (outputs : list Z)
  : Prop :=
  ∀ i a o, answers !! i = Some a → outputs !! i = Some o →
           (Qcabs (a - Qc_of_Z o) ≤ eps)%Qc.


(** A gene that is a negative connection value. *)
Definition is_negative (gene : option Z) : bool :=
  match gene with
  | Some g => bool_decide (g < 0)
  | None => false
  end.

(** ** Concrete configurations, individuals and instances *)

(** A configuration that only gives [input_length]. *)
Definition cfg (n : Z) : gmap string value := {[ "input_length" := Int n ]}.

(** A configuration with [input_length] and a zero [epsilon]. *)
Definition cfg_eps (n : Z) : gmap string value :=
  {[ "input_length" := Int n; "epsilon" := Int 0 ]}.

(** An individual that answers nothing and has only no-op genes. *)
Definition silent : Individual :=
  {| evaluate := λ _, []; genes := [None; None]; active := ∅ |}.

(** An individual that always answers [1]. *)
Definition constant_one : Individual :=
  {| evaluate := λ _, [1%Qc]; genes := [Some (-1); None; Some 2];
     active := {[ 0%nat ]} |}.

(** An individual that answers [3] (a depth of 3). *)
Definition depth_three : Individual :=
  {| evaluate := λ _, [Qc_of_Z 3]; genes := []; active := ∅ |}.


Definition Breadth_2 : Bounded_Problem :=
  {| cls := Breadth; config := cfg_eps 2;
     training := [([1; 0], [1]); ([0; 1], [1])]; epsilon := Int 0 |}.

(** ** The operator library of [problems.py] *)

(** The truth value Python gives an integer operand. *)
Definition truthy (x : Z) : bool := bool_decide (x ≠ 0).

(** [x and y], [x or y]: the operand that decides the result. *)
Definition py_and (x y : Z) : Z := if truthy x then y else x.
Definition py_or (x y : Z) : Z := if truthy x then x else y.

(** [not x], the boolean as the integer 1 or 0. *)
Definition py_not (x : Z) : Z := if truthy x then 0 else 1.

Definition nand (x y : Z) : Z := py_not (py_and x y).
Definition nor (x y : Z) : Z := py_not (py_or x y).

(** [operator.or_] and [operator.and_] on integers. *)
Definition or_ (x y : Z) : Z := Z.lor x y.
Definition and_ (x y : Z) : Z := Z.land x y.

Definition binary_operators : list (Z → Z → Z) := [or_; and_; nand; nor].

(** ** [util.py] *)

(** [sum(x != y for x, y in izip(data1, data2))] *)
Definition diff_count {A} `{EqDecision A} (data1 data2 : list A) : Z :=
  foldl Z.add 0
        ((λ xy, if decide (xy.1 ≠ xy.2) then 1 else 0) <$> zip data1 data2).

(** [xs[i]] for an integer index: a negative index counts from the end. *)
Definition py_index {A} (xs : list A) (i : Z) : result A :=
  let j := if bool_decide (i < 0) then len xs + i else i in
  if bool_decide (0 ≤ j) then
    match xs !! Z.to_nat j with
    | Some x => Ok x
    | None => Raise IndexError
    end
  else Raise IndexError.

(** [sorted(data)] on numbers. *)
Definition sorted (data : list Qc) : list Qc := merge_sort Qcle data.

Definition find_median (data : list Qc) : result Qc :=
  let ordered := sorted data in
  let length := len data in
  let middle := length `div` 2 in
  if bool_decide (length `mod` 2 = 1) then py_index ordered middle
  else
    upper ← py_index ordered middle;
    lower ← py_index ordered (middle - 1);
    Ok ((upper + lower) / Qc_of_Z 2)%Qc.

Definition median_deviation (data : list Qc) (median : option Qc)
  : result (Qc * Qc) :=
  median ← match median with
           | None => find_median data
           | Some m => Ok m
           end;
  deviation ← find_median ((λ x, Qcabs (x - median)) <$> data);
  Ok (median, deviation).

(** The loop of [load_configurations]; [file_method] opens a file and
    decodes its JSON dictionary, or raises. [result.update(d)] lets the
    keys of [d] win. *)
Fixpoint load_loop (file_method : string → result (gmap string value))
    (filenames : list string) (acc : gmap string value)
  : result (gmap string value) :=
  match filenames with
  | [] => Ok acc
  | filename :: rest =>
      loaded ← file_method filename;
      load_loop file_method rest (loaded ∪ acc)
  end.

Definition load_configurations
    (file_method : string → result (gmap string value))
    (filenames : list string) : result (gmap string value) :=
  load_loop file_method filenames ∅.

(** Sample data for the runs below. *)
Definition sample_odd : list Qc := [Qc_of_Z 5; Qc_of_Z 1; Qc_of_Z 3].

(** An individual that answers more outputs than Breadth expects. *)
Definition verbose_one : Individual :=
  {| evaluate := λ _, [1%Qc; Qc_of_Z 7]; genes := [None; Some (-3); Some (-1)];
     active := ∅ |}.

(** Breadth with [input_length] 2 and an epsilon of 5. *)
Definition cfg_wide : gmap string value :=
  {[ "input_length" := Int 2; "epsilon" := Int 5 ]}.
Definition Breadth_2_wide : Bounded_Problem :=
  {| cls := Breadth; config := cfg_wide;
     training := [([1; 0], [1]); ([0; 1], [1])]; epsilon := Int 5 |}.

(** An individual with the non-no-op genes of [constant_one], reordered. *)
Definition two_genes : Individual :=
  {| evaluate := λ _, []; genes := [Some 2; Some (-1)]; active := ∅ |}.

(** A directory of three configuration files for [load_configurations]:
    two that hold JSON dictionaries and one whose content is not JSON, on
    which [json.load] raises [ValueError]. *)
Definition sample_files (filename : string) : result (gmap string value) :=
  if decide (filename = "base.json")
  then Ok {[ "input_length" := Int 2; "epsilon" := Int 0 ]}
  else if decide (filename = "override.json")
  then Ok {[ "input_length" := Int 3 ]}
  else Raise ValueError.

(** What the two good files of [sample_files] hold, in the order
    base.json, override.json. *)
Definition sample_loaded : list (gmap string value) :=
  [{[ "input_length" := Int 2; "epsilon" := Int 0 ]};
   {[ "input_length" := Int 3 ]}].

(** * Properties *)

(** ** Small runs *)

Example binary_range_2 :
  binary_range (cfg 2) = Ok [[0; 0]; [0; 1]; [1; 0]; [1; 1]].
Proof. vm_compute. reflexivity. Qed.

Example single_bit_set_3 :
  single_bit_set (cfg 3) = Ok [[1; 0; 0]; [0; 1; 0]; [0; 0; 1]].
Proof. vm_compute. reflexivity. Qed.

Example str_examples : str 0 = ["0"%char] ∧ str 1 = ["1"%char] ∧ str (-12) = ["-"; "1"; "2"]%char.
Proof. vm_compute. auto. Qed.

Example bin_6 : bin 6 = ["0"; "b"; "1"; "1"; "0"]%char.
Proof. reflexivity. Qed.

Example Binary_Multiply_odd :
  Binary_Multiply_problem_function [1; 1; 1] = Ok [0; 1; 1].
Proof. reflexivity. Qed.

Example Binary_Multiply_one_bit :
  (Bounded_Problem_init Binary_Multiply (cfg_eps 1) []).2 = Raise ValueError.
Proof. vm_compute. reflexivity. Qed.

Example Breadth_2_constructed :
  (Bounded_Problem_init Breadth (cfg_eps 2) []).2 = Ok Breadth_2.
Proof. vm_compute. reflexivity. Qed.

Example Breadth_2_fitness :
  (get_fitness constant_one Breadth_2).2 = Ok 1%Qc
  ∧ (get_fitness depth_three Breadth_2).2 = Ok 0%Qc.
Proof. split; vm_compute; reflexivity. Qed.

Example Flat_half : Flat_get_fitness constant_one = Ok (Q2Qc (1 # 2)).
Proof. vm_compute. reflexivity. Qed.

Example Neutral_zero individual : Neutral_get_fitness individual = Ok 0%Qc.
Proof. reflexivity. Qed.

(** ** The domain generators *)

Section product.

Lemma product_pools_app pools1 pools2 acc :
  product_pools (pools1 ++ pools2) acc
  = product_pools pools2 (product_pools pools1 acc).
Proof.
  revert acc. induction pools1 as [|pool pools1 IH]; intros acc; [done|].
  simpl. apply IH.
Qed.

Lemma product_pools_S pool m acc :
  product_pools (replicate (S m) pool) acc
  = product_step pool (product_pools (replicate m pool) acc).
Proof. by rewrite replicate_S_end, product_pools_app. Qed.

Lemma cube_S m : cube (S m) = x ← cube m; [x ++ [0]; x ++ [1]].
Proof. unfold cube. by rewrite product_pools_S. Qed.

Lemma int_of_bits_snoc bits b : int_of_bits (bits ++ [b]) = 2 * int_of_bits bits + b.
Proof. unfold int_of_bits. by rewrite foldl_app. Qed.

Lemma double_seqZ (a : Z) (n : nat) :
  (k ← seqZ a (Z.of_nat n); [2 * k; 2 * k + 1]) = seqZ (2 * a) (Z.of_nat (2 * n)).
Proof.
  induction n as [|n IH]; [done|].
  rewrite seqZ_S, bind_app, IH, bind_singleton.
  replace (2 * S n)%nat with (S (S (2 * n))) by lia.
  rewrite !seqZ_S, <-app_assoc. simpl. do 3 f_equal; lia.
Qed.

Lemma cube_values m : int_of_bits <$> cube m = seqZ 0 (Z.of_nat (2 ^ m)).
Proof.
  induction m as [|m IH]; [done|].
  rewrite cube_S.
  transitivity (k ← int_of_bits <$> cube m; [2 * k; 2 * k + 1]).
  - generalize (cube m). intros l. induction l as [|x l IHl]; [done|].
    rewrite fmap_cons, !bind_cons, fmap_app, IHl. simpl.
    by rewrite !int_of_bits_snoc, Z.add_0_r.
  - rewrite IH, double_seqZ. by rewrite Nat.pow_succ_r'.
Qed.

Lemma cube_length m : length (cube m) = (2 ^ m)%nat.
Proof.
  rewrite <-(length_fmap int_of_bits), cube_values, length_seqZ. lia.
Qed.

Lemma cube_NoDup m : NoDup (cube m).
Proof. apply (NoDup_fmap_1 int_of_bits). rewrite cube_values. apply NoDup_seqZ. Qed.

Lemma cube_shape m v : v ∈ cube m → length v = m ∧ Forall is_bit v.
Proof.
  revert v. induction m as [|m IH]; intros v.
  - intros ->%list_elem_of_singleton. by split.
  - rewrite cube_S. intros (x & Hv & Hx)%list_elem_of_bind.
    destruct (IH _ Hx) as [Hlen Hbits].
    assert (∃ b, is_bit b ∧ v = x ++ [b]) as (b & Hb & ->).
    { apply elem_of_cons in Hv as [->|Hv]; [exists 0; split; [by left|done]|].
      apply list_elem_of_singleton in Hv as ->. exists 1. split; [by right|done]. }
    split; [rewrite length_app; simpl; lia|].
    apply Forall_app. split; [done|]. by apply Forall_singleton.
Qed.

Lemma cube_complete m v : length v = m → Forall is_bit v → v ∈ cube m.
Proof.
  revert v. induction m as [|m IH]; intros v Hlen Hbits.
  - apply nil_length_inv in Hlen as ->. apply list_elem_of_singleton. done.
  - destruct (decide (v = [])) as [->|Hne]; [done|].
    destruct (exists_last Hne) as (x & b & ->).
    rewrite length_app in Hlen. simpl in Hlen.
    apply Forall_app in Hbits as [Hx Hb]. rewrite Forall_singleton in Hb.
    rewrite cube_S. apply list_elem_of_bind. exists x. split.
    + unfold is_bit in Hb. destruct Hb as [->| ->]; rewrite !elem_of_cons; auto.
    + apply IH; [lia|done].
Qed.

Lemma cube_lookup m i v : cube m !! i = Some v → int_of_bits v = Z.of_nat i.
Proof.
  intros Hv.
  assert ((int_of_bits <$> cube m) !! i = Some (int_of_bits v)) as Hi
    by (by rewrite list_lookup_fmap, Hv).
  rewrite cube_values in Hi. apply lookup_seqZ in Hi. lia.
Qed.

End product.

Lemma getitem_Some (config : gmap string value) key v :
  config !! key = Some v → getitem config key = Ok v.
Proof. unfold getitem. by intros ->. Qed.

Lemma getitem_None (config : gmap string value) key :
  config !! key = None → getitem config key = Raise (KeyError key).
Proof. unfold getitem. by intros ->. Qed.

(** C6: for a non-negative [input_length] n, [binary_range] yields 2^n
    vectors, each of length n; no vector occurs twice and every 0/1 vector
    of length n occurs; the order is fixed: the vector at position i is
    the n-bit numeral of i, most significant bit first. *)
Theorem binary_range_enumerates (config : gmap string value) (n : Z) :
  config !! "input_length" = Some (Int n) →
  0 ≤ n →
  ∃ vectors,
    binary_range config = Ok vectors
    ∧ length vectors = (2 ^ Z.to_nat n)%nat
    ∧ NoDup vectors
    ∧ (∀ v, v ∈ vectors ↔ len v = n ∧ Forall is_bit v)
    ∧ (∀ i v, vectors !! i = Some v → int_of_bits v = Z.of_nat i).
Proof.
  intros Hcfg Hn. exists (cube (Z.to_nat n)).
  split; [|split; [|split; [|split]]].
  - unfold binary_range. rewrite (getitem_Some _ _ _ Hcfg). simpl.
    unfold product. by rewrite bool_decide_eq_false_2 by lia.
  - apply cube_length.
  - apply cube_NoDup.
  - intros v. unfold len. split.
    + intros [Hlen Hbits]%cube_shape. split; [lia|done].
    + intros [Hlen Hbits]. apply cube_complete; [lia|done].
  - apply cube_lookup.
Qed.

Lemma binary_range_enumerates_witness :
  cfg 3 !! "input_length" = Some (Int 3) ∧ 0 ≤ 3 ∧
  ∃ vectors,
    binary_range (cfg 3) = Ok vectors
    ∧ length vectors = (2 ^ Z.to_nat 3)%nat
    ∧ NoDup vectors
    ∧ (∀ v, v ∈ vectors ↔ len v = 3 ∧ Forall is_bit v)
    ∧ (∀ i v, vectors !! i = Some v → int_of_bits v = Z.of_nat i).
Proof.
  split; [reflexivity|]. split; [lia|].
  apply (binary_range_enumerates (cfg 3) 3); [reflexivity | lia].
Defined.

Section single_bit_set.

Lemma map_result_ext {A B} (f : A → result B) (g : A → B) xs :
  (∀ x, x ∈ xs → f x = Ok (g x)) → map_result f xs = Ok (g <$> xs).
Proof.
  induction xs as [|x xs IH]; intros Hf; [done|].
  simpl. rewrite Hf by left. simpl. rewrite IH; [done|].
  intros y Hy. apply Hf. by right.
Qed.

Lemma int_of_chars_bits (s : list ascii) :
  Forall (λ c, c = "0"%char ∨ c = "1"%char) s →
  map_result int_of_char s = Ok (bit_of_char <$> s).
Proof.
  intros Hs. apply map_result_ext. intros c Hc.
  rewrite Forall_forall in Hs. by destruct (Hs c Hc) as [-> | ->].
Qed.

Lemma one_hot_string n i :
  0 ≤ i →
  map_result int_of_char (ljust n "0" (rjust (i + 1) "0" ["1"%char]))
  = Ok (one_hot n i).
Proof.
  intros Hi. rewrite int_of_chars_bits.
  - unfold ljust, rjust, one_hot, len.
    rewrite !fmap_app, !fmap_replicate, length_app, length_replicate.
    rewrite <-app_assoc.
    change (bit_of_char "0") with 0. change (bit_of_char <$> ["1"%char]) with [1].
    simpl length.
    replace (Z.to_nat (i + 1 - Z.of_nat 1)) with (Z.to_nat i) by lia.
    replace (Z.to_nat (n - Z.of_nat (Z.to_nat i + 1))) with (Z.to_nat (n - (i + 1))) by lia.
    done.
  - unfold ljust, rjust. rewrite !Forall_app, Forall_singleton.
    repeat split; try (apply Forall_replicate); auto.
Qed.

Lemma single_bit_set_eq (config : gmap string value) n :
  config !! "input_length" = Some (Int n) →
  single_bit_set config = Ok (one_hot n <$> range n).
Proof.
  intros Hcfg. unfold single_bit_set. rewrite (getitem_Some _ _ _ Hcfg). simpl.
  apply map_result_ext. intros i [Hi _]%elem_of_seqZ.
  apply one_hot_string. lia.
Qed.

Lemma one_hot_length n i : 0 ≤ i < n → len (one_hot n i) = n.
Proof.
  intros Hi. unfold len, one_hot.
  rewrite !length_app, !length_replicate. simpl. lia.
Qed.

Lemma one_hot_lookup n i (j : nat) :
  0 ≤ i < n → Z.of_nat j < n →
  one_hot n i !! j = Some (if decide (Z.of_nat j = i) then 1 else 0).
Proof.
  intros Hi Hj. unfold one_hot.
  destruct (decide (Z.of_nat j < i)) as [Hlt|Hge].
  - rewrite lookup_app_l by (rewrite length_replicate; lia).
    rewrite lookup_replicate_2 by lia. case_decide; [lia|done].
  - rewrite lookup_app_r by (rewrite length_replicate; lia).
    rewrite length_replicate.
    case_decide as Heq.
    + replace (j - Z.to_nat i)%nat with 0%nat by lia. done.
    + destruct (j - Z.to_nat i)%nat as [|k] eqn:Hk; [lia|]. simpl.
      rewrite lookup_replicate_2 by lia. done.
Qed.

End single_bit_set.

Lemma one_hot_weight n i : hamming_weight (one_hot n i) = 1%nat.
Proof.
  assert (∀ k, filter (λ b : Z, b ≠ 0) (replicate k 0) = []) as Hz.
  { induction k as [|k IH]; [done|]. simpl. by rewrite filter_cons_False by lia. }
  unfold hamming_weight, one_hot.
  rewrite !filter_app, !Hz. reflexivity.
Qed.

(** C7: for a positive [input_length] n, [single_bit_set] yields n vectors
    of length n; the i-th (from 0) has a 1 at position i and a 0 at every
    other position, hence Hamming weight 1. *)
Theorem single_bit_set_one_hot (config : gmap string value) (n : Z) :
  config !! "input_length" = Some (Int n) →
  0 < n →
  ∃ vectors,
    single_bit_set config = Ok vectors
    ∧ len vectors = n
    ∧ ∀ i : nat, Z.of_nat i < n →
        ∃ v, vectors !! i = Some v
             ∧ len v = n
             ∧ (∀ j : nat, Z.of_nat j < n →
                  v !! j = Some (if decide (j = i) then 1 else 0))
             ∧ hamming_weight v = 1%nat.
Proof.
  intros Hcfg Hn. exists (one_hot n <$> range n).
  split; [by apply single_bit_set_eq|]. split.
  - unfold len, range. rewrite length_fmap, length_seqZ. lia.
  - intros i Hi. exists (one_hot n (Z.of_nat i)).
    split; [|split; [|split]].
    + unfold range. rewrite list_lookup_fmap, lookup_seqZ_lt by done. done.
    + apply one_hot_length. lia.
    + intros j Hj. rewrite one_hot_lookup by lia.
      do 2 case_decide; (done || lia).
    + apply one_hot_weight.
Qed.

Lemma single_bit_set_one_hot_witness :
  cfg 3 !! "input_length" = Some (Int 3) ∧ 0 < 3 ∧
  ∃ vectors,
    single_bit_set (cfg 3) = Ok vectors
    ∧ len vectors = 3
    ∧ ∀ i : nat, Z.of_nat i < 3 →
        ∃ v, vectors !! i = Some v
             ∧ len v = 3
             ∧ (∀ j : nat, Z.of_nat j < 3 →
                  v !! j = Some (if decide (j = i) then 1 else 0))
             ∧ hamming_weight v = 1%nat.
Proof.
  split; [reflexivity|]. split; [lia|].
  apply (single_bit_set_one_hot (cfg 3) 3); [reflexivity | lia].
Defined.

(** ** Binary_Multiply.problem_function *)

Section binary_multiply.

Lemma bit_char_of_char b : is_bit b → bit_of_char (bit_char b) = b.
Proof. by intros [-> | ->]. Qed.

Lemma joined_bits inputs :
  Forall is_bit inputs → concat (str <$> inputs) = bit_char <$> inputs.
Proof.
  induction 1 as [|b bits Hb _ IH]; [done|].
  rewrite !fmap_cons. cbn [concat]. rewrite IH. by destruct Hb as [-> | ->].
Qed.

Lemma digits_value_bits acc bits :
  Forall is_bit bits →
  digits_value 2 acc (bit_char <$> bits) = Ok (foldl (λ a b, 2 * a + b) acc bits).
Proof.
  intros Hbits. revert acc. induction Hbits as [|b bits Hb _ IH]; intros acc; [done|].
  destruct Hb as [-> | ->]; simpl; apply IH.
Qed.

Lemma int_of_str_bits bits :
  bits ≠ [] → Forall is_bit bits →
  int_of_str 2 (bit_char <$> bits) = Ok (int_of_bits bits).
Proof.
  intros Hne Hbits. unfold int_of_bits. rewrite <-digits_value_bits by done.
  destruct Hbits as [|b bits Hb _]; [done|].
  by destruct Hb as [-> | ->].
Qed.

Lemma int_of_bits_bounds bits :
  Forall is_bit bits → 0 ≤ int_of_bits bits < 2 ^ len bits.
Proof.
  induction bits as [|b bits IH] using rev_ind; intros Hbits; [done|].
  apply Forall_app in Hbits as [Hbits Hb]. rewrite Forall_singleton in Hb.
  specialize (IH Hbits). rewrite int_of_bits_snoc. unfold len in *.
  rewrite length_app, Nat2Z.inj_add, Z.pow_add_r by lia. simpl length.
  change (2 ^ Z.of_nat 1) with 2. destruct Hb as [-> | ->]; lia.
Qed.

Lemma int_of_bits_zeros k bits :
  int_of_bits (replicate k 0 ++ bits) = int_of_bits bits.
Proof.
  unfold int_of_bits. rewrite foldl_app. f_equal.
  induction k as [|k IH]; [done|]. simpl. apply IH.
Qed.

Lemma bin_digits_chars p :
  Forall (λ c, c = "0"%char ∨ c = "1"%char) (bin_digits p).
Proof.
  induction p as [q IH|q IH|]; simpl;
    rewrite ?Forall_app, ?Forall_singleton; auto.
Qed.

Lemma bin_digits_value p : int_of_bits (bit_of_char <$> bin_digits p) = Z.pos p.
Proof.
  induction p as [q IH|q IH|]; [| |done].
  - change (bin_digits q~1) with (bin_digits q ++ ["1"%char]).
    rewrite fmap_app. change (bit_of_char <$> ["1"%char]) with [1].
    rewrite int_of_bits_snoc, IH. lia.
  - change (bin_digits q~0) with (bin_digits q ++ ["0"%char]).
    rewrite fmap_app. change (bit_of_char <$> ["0"%char]) with [0].
    rewrite int_of_bits_snoc, IH. lia.
Qed.

Lemma bin_digits_length p k :
  0 ≤ k → Z.pos p < 2 ^ k → len (bin_digits p) ≤ k.
Proof.
  unfold len. revert k. induction p as [q IH|q IH|]; intros k Hk Hp; simpl.
  - rewrite length_app. simpl length.
    assert (k ≠ 0) by (intros ->; simpl in Hp; lia).
    specialize (IH (k - 1)).
    replace (2 ^ k) with (2 * 2 ^ (k - 1)) in Hp
      by (rewrite <-Z.pow_succ_r by lia; f_equal; lia).
    lia.
  - rewrite length_app. simpl length.
    assert (k ≠ 0) by (intros ->; simpl in Hp; lia).
    specialize (IH (k - 1)).
    replace (2 ^ k) with (2 * 2 ^ (k - 1)) in Hp
      by (rewrite <-Z.pow_succ_r by lia; f_equal; lia).
    lia.
  - assert (k ≠ 0) by (intros ->; simpl in Hp; lia). lia.
Qed.

(** The digits that [bin(z)[2:]] leaves for a non-negative [z]. *)
Lemma bin_tail z k :
  0 ≤ z < 2 ^ k → 1 ≤ k →
  let digits := drop 2 (bin z) in
  Forall (λ c, c = "0"%char ∨ c = "1"%char) digits
  ∧ int_of_bits (bit_of_char <$> digits) = z
  ∧ len digits ≤ k.
Proof.
  intros Hz Hk. destruct z as [|p|p]; [| |lia].
  - simpl. split; [|split]; [|done|unfold len; simpl; lia].
    apply Forall_singleton. by left.
  - simpl. split; [|split].
    + apply bin_digits_chars.
    + apply bin_digits_value.
    + apply bin_digits_length; lia.
Qed.

Lemma Binary_Multiply_product inputs :
  Forall is_bit inputs →
  2 ≤ len inputs →
  ∃ outputs,
    Binary_Multiply_problem_function inputs = Ok outputs
    ∧ len outputs = len inputs
    ∧ Forall is_bit outputs
    ∧ int_of_bits outputs
      = int_of_bits (take (Z.to_nat (len inputs `div` 2)) inputs)
        * int_of_bits (drop (Z.to_nat (len inputs `div` 2)) inputs).
Proof.
  intros Hbits Hlen. unfold Binary_Multiply_problem_function.
  rewrite joined_bits by done.
  replace (len (bit_char <$> inputs)) with (len inputs)
    by (unfold len; by rewrite length_fmap).
  set (middle := Z.to_nat (len inputs `div` 2)).
  assert (0 < middle < length inputs)%nat as Hmid.
  { unfold len in *. subst middle. split.
    - apply Nat2Z.inj_lt. rewrite Z2Nat.id by (apply Z.div_pos; lia).
      apply Z.div_str_pos; lia.
    - apply Nat2Z.inj_lt. rewrite Z2Nat.id by (apply Z.div_pos; lia).
      apply Z.div_lt; lia. }
  rewrite <-fmap_take, <-fmap_drop.
  set (a := take middle inputs). set (b := drop middle inputs).
  assert (Forall is_bit a) as Ha by by apply Forall_take.
  assert (Forall is_bit b) as Hb by by apply Forall_drop.
  assert (length a = middle) as Hla by (subst a; rewrite length_take; lia).
  assert (length b = (length inputs - middle)%nat) as Hlb
    by (subst b; by rewrite length_drop).
  assert (a ≠ []) by (intros E; rewrite E in Hla; simpl in Hla; lia).
  assert (b ≠ []) by (intros E; rewrite E in Hlb; simpl in Hlb; lia).
  rewrite !int_of_str_bits by done.
  simpl.
  pose proof (int_of_bits_bounds a Ha) as Hva.
  pose proof (int_of_bits_bounds b Hb) as Hvb.
  set (z := int_of_bits a * int_of_bits b) in *.
  assert (0 ≤ z < 2 ^ len inputs) as Hz.
  { replace (len inputs) with (len a + len b) by (unfold len; lia).
    rewrite Z.pow_add_r by (unfold len; lia). subst z. nia. }
  destruct (bin_tail z (len inputs) Hz ltac:(lia)) as (Hchars & Hval & Hdlen).
  set (digits := drop 2 (bin z)) in *.
  rewrite int_of_chars_bits.
  2:{ unfold rjust. apply Forall_app. split; [|done].
      apply Forall_replicate. by left. }
  eexists. split; [done|]. unfold rjust.
  rewrite fmap_app, fmap_replicate. change (bit_of_char "0") with 0.
  split; [|split].
  - unfold len in *. rewrite length_app, length_replicate, length_fmap. lia.
  - apply Forall_app. split; [apply Forall_replicate; by left|].
    apply Forall_fmap. eapply Forall_impl; [exact Hchars|].
    intros c [-> | ->]; [by left | by right].
  - by rewrite int_of_bits_zeros.
Qed.

Lemma Binary_Multiply_short inputs :
  len inputs < 2 → Forall is_bit inputs →
  Binary_Multiply_problem_function inputs = Raise ValueError.
Proof.
  unfold len. intros Hlen Hbits.
  destruct Hbits as [|b [|b' bits] Hb Hbits]; [done| |simpl in Hlen; lia].
  by destruct Hb as [-> | ->].
Qed.

End binary_multiply.

(** ** Construction of a Bounded_Problem *)

Section construction.

Lemma table_Forall2 c domain training :
  table c domain = Ok training →
  Forall2 (λ inputs case, case.1 = inputs ∧ problem_function c inputs = Ok case.2)
          domain training.
Proof.
  unfold table. revert training.
  induction domain as [|inputs domain IH]; intros training; simpl.
  - intros [= <-]. constructor.
  - destruct (problem_function c inputs) as [outputs|e] eqn:Hpf; [|done]. simpl.
    destruct (map_result _ domain) as [rest|e]; [|done]. simpl.
    intros [= <-]. constructor; [done|]. by apply IH.
Qed.

Lemma bind_run {S A B} (m : M S A) (f : A → M S B) s :
  (m ≫= f) s
  = match m s with
    | (s', Ok a) => f a s'
    | (s', Raise e) => (s', Raise e)
    end.
Proof. reflexivity. Qed.

Lemma table_entry_run c inputs t :
  table_entry c inputs t
  = (t ++ [Call_problem_function inputs],
     outputs ← problem_function c inputs; Ok (inputs, outputs)).
Proof.
  unfold table_entry. rewrite bind_run. unfold log. rewrite bind_run.
  unfold lift. by destruct (problem_function c inputs).
Qed.

Lemma table_run_ok c domain training t :
  table c domain = Ok training →
  map_M (table_entry c) domain t
  = (t ++ (Call_problem_function <$> domain), Ok training).
Proof.
  unfold table. revert t training.
  induction domain as [|inputs domain IH]; intros t training; simpl.
  - intros [= <-]. unfold mret, M_ret. by rewrite app_nil_r.
  - rewrite bind_run, table_entry_run.
    destruct (problem_function c inputs) as [outputs|e]; [|done]. simpl.
    destruct (map_result _ domain) as [rest|e]; [|done]. simpl.
    intros [= <-]. rewrite bind_run, (IH _ rest eq_refl).
    unfold mret, M_ret. by rewrite <-app_assoc.
Qed.

Lemma table_run_snd c domain t :
  (map_M (table_entry c) domain t).2 = table c domain.
Proof.
  unfold table. revert t.
  induction domain as [|inputs domain IH]; intros t; simpl; [done|].
  rewrite bind_run, table_entry_run.
  destruct (problem_function c inputs) as [outputs|e]; [|done]. simpl.
  rewrite bind_run. specialize (IH (t ++ [Call_problem_function inputs])).
  destruct (map_M _ domain _) as [t' [rest|e]]; simpl in *; by rewrite <-IH.
Qed.

(** The outcome of construction, without the trace. *)
Lemma init_snd c cfg0 t :
  (Bounded_Problem_init c cfg0 t).2
  = (domain ← data_range c cfg0;
     training ← table c domain;
     epsilon ← getitem cfg0 "epsilon";
     Ok {| cls := c; config := cfg0; training := training; epsilon := epsilon |}).
Proof.
  unfold Bounded_Problem_init. rewrite !bind_run. unfold log, lift.
  destruct (data_range c cfg0) as [domain|e]; [|done]. simpl.
  rewrite bind_run.
  pose proof (table_run_snd c domain (t ++ [Call_data_range])) as Htab.
  destruct (map_M _ domain _) as [t' [training|e]]; simpl in *; rewrite <-Htab;
    [|done].
  simpl. rewrite bind_run. by destruct (getitem cfg0 "epsilon").
Qed.

(** When the domain and the table can be computed, the whole table is
    computed before [epsilon] is looked up. *)
Lemma init_run_ok c cfg0 domain training t :
  data_range c cfg0 = Ok domain →
  table c domain = Ok training →
  Bounded_Problem_init c cfg0 t
  = (t ++ Call_data_range :: (Call_problem_function <$> domain),
     epsilon ← getitem cfg0 "epsilon";
     Ok {| cls := c; config := cfg0; training := training; epsilon := epsilon |}).
Proof.
  intros Hdom Htab. unfold Bounded_Problem_init.
  rewrite !bind_run. unfold log, lift. rewrite Hdom.
  rewrite bind_run, (table_run_ok _ _ _ _ Htab), <-app_assoc. simpl.
  rewrite bind_run. by destruct (getitem cfg0 "epsilon").
Qed.

Lemma init_inv c cfg0 t t' p :
  Bounded_Problem_init c cfg0 t = (t', Ok p) →
  ∃ domain,
    data_range c cfg0 = Ok domain
    ∧ table c domain = Ok (training p)
    ∧ getitem cfg0 "epsilon" = Ok (epsilon p)
    ∧ cls p = c ∧ config p = cfg0
    ∧ t' = t ++ Call_data_range :: (Call_problem_function <$> domain).
Proof.
  intros Hinit. pose proof (init_snd c cfg0 t) as Hsnd.
  rewrite Hinit in Hsnd. simpl in Hsnd.
  destruct (data_range c cfg0) as [domain|e] eqn:Hdom; [|done]. simpl in Hsnd.
  destruct (table c domain) as [training|e] eqn:Htab; [|done]. simpl in Hsnd.
  rewrite (init_run_ok _ _ _ _ _ Hdom Htab) in Hinit.
  destruct (getitem cfg0 "epsilon") as [eps|e]; [|done]. simpl in *.
  injection Hinit as <- <-. by exists domain.
Qed.

Lemma binary_range_inv config domain :
  binary_range config = Ok domain →
  ∃ n, config !! "input_length" = Some (Int n) ∧ 0 ≤ n
       ∧ domain = cube (Z.to_nat n).
Proof.
  unfold binary_range, getitem.
  destruct (config !! "input_length") as [[n|q]|] eqn:Hcfg; [|done..]. simpl.
  unfold product. case_bool_decide; [done|]. intros [= <-].
  exists n. split; [done|]. split; [lia|done].
Qed.

Lemma single_bit_set_inv config domain :
  single_bit_set config = Ok domain →
  ∃ n, config !! "input_length" = Some (Int n) ∧ domain = one_hot n <$> range n.
Proof.
  intros Hdom.
  assert (∃ n, config !! "input_length" = Some (Int n)) as [n Hcfg].
  { unfold single_bit_set, getitem in Hdom.
    destruct (config !! "input_length") as [[n|q]|]; [by exists n|done..]. }
  exists n. split; [done|].
  rewrite (single_bit_set_eq _ _ Hcfg) in Hdom. by injection Hdom as <-.
Qed.

(** Every case of a constructed instance has the configured input length
    and the arity of its variant, which is positive. *)
Lemma training_shape c cfg0 t t' p :
  Bounded_Problem_init c cfg0 t = (t', Ok p) →
  ∃ n, cfg0 !! "input_length" = Some (Int n)
       ∧ Forall (λ case, len case.1 = n ∧ len case.2 = arity c n ∧ 0 < len case.2)
                (training p).
Proof.
  intros (domain & Hdom & Htab & _)%init_inv.
  apply table_Forall2 in Htab. destruct c; simpl in Hdom.
  - apply binary_range_inv in Hdom as (n & Hcfg & Hn & ->).
    exists n. split; [done|].
    eapply Forall2_Forall_r; [exact Htab|].
    apply Forall_forall. intros inputs [Hlen Hbits]%cube_shape case [-> Hpf].
    simpl in Hpf.
    destruct (decide (len inputs < 2)) as [Hshort|Hlong].
    { by rewrite Binary_Multiply_short in Hpf. }
    destruct (Binary_Multiply_product inputs Hbits ltac:(lia))
      as (outputs & Hout & Hlen' & _).
    rewrite Hpf in Hout. injection Hout as <-.
    unfold len in *. simpl. lia.
  - apply single_bit_set_inv in Hdom as (n & Hcfg & ->).
    exists n. split; [done|].
    eapply Forall2_Forall_r; [exact Htab|].
    apply Forall_forall.
    intros inputs (i & -> & [Hi Hi']%elem_of_seqZ)%list_elem_of_fmap case [Hc Hpf].
    simpl in Hpf. injection Hpf as <-.
    rewrite Hc, one_hot_length by lia. done.
Qed.

Lemma init_without_epsilon c cfg0 t :
  cfg0 !! "epsilon" = None →
  ∃ t' e, Bounded_Problem_init c cfg0 t = (t', Raise e).
Proof.
  intros Heps. pose proof (init_snd c cfg0 t) as Hsnd.
  rewrite (getitem_None _ _ Heps) in Hsnd.
  destruct (Bounded_Problem_init c cfg0 t) as [t' [p|e]]; [|by eauto].
  simpl in Hsnd. destruct (data_range c cfg0) as [domain|e]; [|done].
  simpl in Hsnd. by destruct (table c domain).
Qed.

End construction.

(** ** Bounded_Problem.get_fitness *)

Section get_fitness.

Local Open Scope Qc_scope.

Lemma Qc_of_Z_nonzero z : (z ≠ 0)%Z → Qc_of_Z z ≠ 0.
Proof. rewrite <-Z2Qc_inj_0. by intros Hz ?%Z2Qc_inj. Qed.

Lemma foldl_Qcplus acc xs : foldl Qcplus acc xs = acc + sum_Qc xs.
Proof.
  revert acc. induction xs as [|x xs IH]; intros acc; simpl.
  - by rewrite Qcplus_0_r.
  - rewrite IH. ring.
Qed.

Lemma filter_seq_shift (P : nat → bool) k n :
  length (filter (λ i, P i) (seq (S k) n))
  = length (filter (λ i, P (S i)) (seq k n)).
Proof.
  revert k. induction n as [|n IH]; intros k; [done|].
  simpl. rewrite !filter_cons. destruct (P (S k)); simpl; by rewrite IH.
Qed.

Lemma miss_count_nil_l eps outputs : miss_count eps [] outputs = 0%nat.
Proof.
  unfold miss_count. generalize (seq 0 (length outputs)). intros l.
  induction l as [|i l IH]; [done|]. by rewrite filter_cons.
Qed.

Lemma miss_count_cons eps a answers o outputs :
  miss_count eps (a :: answers) (o :: outputs)
  = ((if bool_decide (eps < Qcabs (a - Qc_of_Z o))%Qc then 1 else 0)
     + miss_count eps answers outputs)%nat.
Proof.
  pose proof (filter_seq_shift (is_miss eps (a :: answers) (o :: outputs))
                0 (length outputs)) as Hshift.
  change (length (filter (λ i, is_miss eps (a :: answers) (o :: outputs) i)
                         (seq 1 (length outputs)))
          = length (filter (λ i, is_miss eps answers outputs i)
                           (seq 0 (length outputs)))) in Hshift.
  unfold miss_count. simpl length. simpl seq. rewrite filter_cons.
  change (is_miss eps (a :: answers) (o :: outputs) 0)
    with (bool_decide (eps < Qcabs (a - Qc_of_Z o))).
  destruct (bool_decide _); simpl; by rewrite Hshift.
Qed.

(** The sum over the zipped pairs counts the misses by position. *)
Lemma py_sum_misses eps answers outputs :
  py_sum ((λ ao, miss eps ao.1 ao.2) <$> zip answers outputs)
  = Qc_of_Z (Z.of_nat (miss_count eps answers outputs)).
Proof.
  unfold py_sum. rewrite foldl_Qcplus, Qcplus_0_l.
  revert outputs. induction answers as [|a answers IH]; intros outputs.
  - rewrite miss_count_nil_l. symmetry. apply Z2Qc_inj_0.
  - destruct outputs as [|o outputs]; [symmetry; apply Z2Qc_inj_0|].
    rewrite miss_count_cons. simpl. rewrite IH. unfold miss.
    rewrite Nat2Z.inj_add, Z2Qc_inj_add. f_equal.
    destruct (bool_decide (eps < Qcabs (a - Qc_of_Z o))); symmetry;
      [apply Z2Qc_inj_1 | apply Z2Qc_inj_0].
Qed.

Lemma miss_count_le eps answers outputs :
  (miss_count eps answers outputs ≤ length outputs)%nat.
Proof.
  unfold miss_count. etrans; [apply length_filter|]. by rewrite length_seq.
Qed.


Lemma miss_count_zero eps answers outputs :
  miss_count eps answers outputs = 0%nat ↔ within_epsilon eps answers outputs.
Proof.
  revert outputs. induction answers as [|a answers IH]; intros outputs.
  - rewrite miss_count_nil_l. split; [|done]. by intros _ i a o.
  - destruct outputs as [|o outputs].
    { split; [|done]. by intros _ i b c. }
    rewrite miss_count_cons. split.
    + intros Hz. case_bool_decide as Hm; [lia|].
      apply Qcle_ngt in Hm. intros [|i] b c; simpl.
      * by intros [= <-] [= <-].
      * apply IH. lia.
    + intros Hin.
      rewrite bool_decide_eq_false_2
        by (apply Qcle_ngt; by apply (Hin 0%nat)).
      simpl. apply IH. intros i b c. apply (Hin (S i)).
Qed.

(** The loop never writes to [self]; when every case has a non-empty
    expected output it adds up the per-case errors. *)
Lemma score_loop_frame individual cases score p :
  (score_loop individual cases score p).1 = p.
Proof.
  revert score. induction cases as [|[inputs outputs] cases IH]; intros score.
  - done.
  - simpl. rewrite bind_run. unfold get. rewrite bind_run. unfold lift.
    destruct (py_div _ _); [apply IH|done].
Qed.

Lemma score_loop_run individual cases score p :
  Forall (λ case, (0 < len case.2)%Z) cases →
  score_loop individual cases score p
  = (p, Ok (score
            + sum_Qc (case_error (to_float (epsilon p)) individual <$> cases))).
Proof.
  intros Hcases. revert score.
  induction Hcases as [|[inputs outputs] cases Hlen _ IH]; intros score.
  - simpl. unfold mret, M_ret. by rewrite Qcplus_0_r.
  - simpl. rewrite bind_run. unfold get. rewrite bind_run. unfold lift.
    rewrite py_sum_misses. unfold py_div.
    rewrite bool_decide_eq_false_2 by (apply Qc_of_Z_nonzero; simpl in Hlen; lia).
    rewrite IH. unfold case_error at 2. simpl. by rewrite Qcplus_assoc.
Qed.

Lemma get_fitness_frame individual p : (get_fitness individual p).1 = p.
Proof.
  unfold get_fitness. rewrite bind_run. unfold get at 1.
  rewrite bind_run.
  pose proof (score_loop_frame individual (training p) 0 p) as Hframe.
  destruct (score_loop _ _ _ _) as [p' [score|e]]; simpl in Hframe; subst p';
    [|done].
  rewrite bind_run. unfold get. rewrite bind_run. unfold lift.
  by destruct (py_div _ _).
Qed.

Lemma get_fitness_run individual p :
  training p ≠ [] →
  Forall (λ case, (0 < len case.2)%Z) (training p) →
  get_fitness individual p
  = (p, Ok (fitness_formula (case_error (to_float (epsilon p)) individual) p)).
Proof.
  intros Hne Hcases. unfold get_fitness. rewrite bind_run. unfold get at 1.
  rewrite bind_run, score_loop_run by done.
  rewrite bind_run. unfold get. rewrite bind_run. unfold lift, py_div.
  rewrite bool_decide_eq_false_2.
  - unfold mret, M_ret, fitness_formula. by rewrite Qcplus_0_l.
  - apply Qc_of_Z_nonzero. unfold len. destruct (training p); [done|simpl; lia].
Qed.

Lemma get_fitness_empty individual p :
  training p = [] →
  get_fitness individual p = (p, Raise ZeroDivisionError).
Proof.
  intros Hempty. unfold get_fitness. rewrite bind_run. unfold get at 1.
  rewrite bind_run, Hempty. simpl. unfold mret at 1, M_ret.
  rewrite bind_run. unfold get. rewrite bind_run, Hempty. done.
Qed.

End get_fitness.

Section fitness_arithmetic.

Local Open Scope Qc_scope.

Lemma Qc_div_bounds m k : 0 ≤ m → m ≤ k → 0 < k → 0 ≤ m / k ∧ m / k ≤ 1.
Proof.
  intros Hm Hmk Hk. pose proof (Qcinv_pos k Hk) as Hinv.
  apply Qclt_le_weak in Hinv. unfold Qcdiv. split.
  - by apply Qcmult_nonneg_nonneg.
  - rewrite <-(Qcmult_inv_r k) by (apply not_eq_sym; by apply Qclt_not_eq).
    by apply Qcmult_le_compat_r.
Qed.

Lemma Qc_div_zero m k : k ≠ 0 → m / k = 0 ↔ m = 0.
Proof.
  intros Hk. split.
  - intros Hz. rewrite <-(Qcmult_div_r m k Hk), Hz. apply Qcmult_0_r.
  - intros ->. unfold Qcdiv. apply Qcmult_0_l.
Qed.

Lemma Qc_one_minus x : 1 - x = 1 ↔ x = 0.
Proof.
  split.
  - intros Hx. replace x with (1 - (1 - x)) by ring. rewrite Hx. ring.
  - intros ->. ring.
Qed.

Lemma Qc_one_minus_bounds x : 0 ≤ x → x ≤ 1 → 0 ≤ 1 - x ∧ 1 - x ≤ 1.
Proof.
  intros H0 H1. split.
  - exact (proj1 (Qcle_minus_iff x 1) H1).
  - replace 1 with (1 - x + x) at 2 by ring.
    rewrite <-(Qcplus_0_r (1 - x)) at 1. by apply Qcplus_le_mono_l.
Qed.

Lemma Qc_of_nat_nonneg (n : nat) : 0 ≤ Qc_of_Z (Z.of_nat n).
Proof. rewrite <-Z2Qc_inj_0. apply (proj1 (Z2Qc_inj_le _ _)). lia. Qed.

Lemma sum_Qc_bounds xs :
  Forall (λ x, 0 ≤ x ∧ x ≤ 1) xs → 0 ≤ sum_Qc xs ∧ sum_Qc xs ≤ Qc_of_Z (len xs).
Proof.
  induction 1 as [|x xs [Hx0 Hx1] _ [IH0 IH1]].
  - change (sum_Qc []) with 0. change (len (@nil Qc)) with 0%Z.
    by rewrite Z2Qc_inj_0.
  - change (sum_Qc (x :: xs)) with (x + sum_Qc xs).
    split; [by apply Qcplus_nonneg_nonneg|].
    unfold len in *. simpl length. rewrite Nat2Z.inj_succ, <-Z.add_1_l.
    rewrite Z2Qc_inj_add, Z2Qc_inj_1. by apply Qcplus_le_compat.
Qed.

Lemma sum_Qc_zero xs :
  Forall (λ x, 0 ≤ x) xs → sum_Qc xs = 0 ↔ Forall (λ x, x = 0) xs.
Proof.
  induction 1 as [|x xs Hx Hxs IH]; [done|]. simpl. split.
  - intros Hsum.
    assert (0 ≤ sum_Qc xs) as Hs.
    { clear -Hxs. induction Hxs; simpl; [done|]. by apply Qcplus_nonneg_nonneg. }
    assert (x = 0) as ->.
    { apply Qcle_antisym; [|done]. rewrite <-Hsum.
      rewrite <-(Qcplus_0_r x) at 1. by apply Qcplus_le_mono_l. }
    rewrite Qcplus_0_l in Hsum. constructor; [done|]. by apply IH.
  - intros Hall. apply Forall_cons in Hall as [-> Hall].
    rewrite Qcplus_0_l. by apply IH.
Qed.

Lemma case_error_bounds eps individual case :
  (0 < len case.2)%Z →
  0 ≤ case_error eps individual case ∧ case_error eps individual case ≤ 1.
Proof.
  intros Hlen. unfold case_error. apply Qc_div_bounds.
  - apply Qc_of_nat_nonneg.
  - apply (proj1 (Z2Qc_inj_le _ _)). apply inj_le. apply miss_count_le.
  - rewrite <-Z2Qc_inj_0. by apply (proj1 (Z2Qc_inj_lt _ _)).
Qed.

Lemma case_error_zero eps individual case :
  (0 < len case.2)%Z →
  case_error eps individual case = 0
  ↔ within_epsilon eps (evaluate individual case.1) case.2.
Proof.
  intros Hlen. unfold case_error.
  rewrite Qc_div_zero by (apply Qc_of_Z_nonzero; lia).
  rewrite <-miss_count_zero, <-Z2Qc_inj_0, Z2Qc_inj_iff. lia.
Qed.


(** The formula of the specification is a number between 0 and 1, and 1
    exactly when no case has a miss. *)
Lemma fitness_formula_bounds eps individual p :
  training p ≠ [] →
  Forall (λ case, (0 < len case.2)%Z) (training p) →
  let f := fitness_formula (case_error eps individual) p in
  0 ≤ f ∧ f ≤ 1
  ∧ (f = 1 ↔ Forall (λ case,
                       within_epsilon eps (evaluate individual case.1) case.2)
                    (training p)).
Proof.
  intros Hne Hcases f. subst f. unfold fitness_formula.
  set (errors := case_error eps individual <$> training p).
  assert (Forall (λ x, 0 ≤ x ∧ x ≤ 1) errors) as Herr.
  { subst errors. apply Forall_fmap. eapply Forall_impl; [exact Hcases|].
    intros case Hlen. by apply case_error_bounds. }
  destruct (sum_Qc_bounds _ Herr) as [Hs0 Hs1].
  assert (len errors = len (training p)) as Hlen
    by (subst errors; unfold len; by rewrite length_fmap).
  rewrite Hlen in Hs1.
  assert (0 < Qc_of_Z (len (training p))) as Hn.
  { rewrite <-Z2Qc_inj_0. apply (proj1 (Z2Qc_inj_lt _ _)). unfold len.
    destruct (training p); [done|simpl; lia]. }
  destruct (Qc_div_bounds _ _ Hs0 Hs1 Hn) as [Hq0 Hq1].
  destruct (Qc_one_minus_bounds _ Hq0 Hq1) as [Hf0 Hf1].
  split; [done|]. split; [done|].
  rewrite Qc_one_minus, Qc_div_zero
    by (apply not_eq_sym; by apply Qclt_not_eq).
  rewrite sum_Qc_zero by (eapply Forall_impl; [exact Herr|]; by intros x [? _]).
  subst errors. rewrite Forall_fmap, !Forall_forall.
  rewrite Forall_forall in Hcases.
  split; intros Hall case Hin; specialize (Hall case Hin);
    by apply (case_error_zero eps individual case (Hcases case Hin)).
Qed.


End fitness_arithmetic.

(** ** The claims about Bounded_Problem *)

Lemma instance_arity_positive c cfg0 t t' p :
  Bounded_Problem_init c cfg0 t = (t', Ok p) →
  Forall (λ case, 0 < len case.2) (training p).
Proof.
  intros (n & _ & Hshape)%training_shape.
  eapply Forall_impl; [exact Hshape|]. by intros case (_ & _ & ?).
Qed.

Lemma table_inputs c domain training :
  table c domain = Ok training → training.*1 = domain.
Proof.
  intros Htab%table_Forall2.
  induction Htab as [|inputs case domain training [Hc _] _ IH]; [done|].
  rewrite fmap_cons. by f_equal.
Qed.






(** C5: in an instance constructed with [input_length] n, every training
    case has an input vector of length n and an output vector of the
    arity of the variant (n for Binary_Multiply, 1 for Breadth); the set
    is computed once, by one call of [problem_function] per case during
    construction, and [get_fitness] leaves the instance as it was. *)
Theorem training_set_invariant c cfg0 n t p :
  cfg0 !! "input_length" = Some (Int n) →
  Bounded_Problem_init c cfg0 [] = (t, Ok p) →
  Forall (λ case, len case.1 = n ∧ len case.2 = arity c n) (training p)
  ∧ t = Call_data_range :: (Call_problem_function <$> (training p).*1)
  ∧ ∀ individual, (get_fitness individual p).1 = p.
Proof.
  intros Hcfg Hinit. split; [|split].
  - destruct (training_shape _ _ _ _ _ Hinit) as (n' & Hcfg' & Hshape).
    assert (n' = n) as -> by congruence.
    eapply Forall_impl; [exact Hshape|]. by intros case (? & ? & _).
  - destruct (init_inv _ _ _ _ _ Hinit) as (domain & _ & Htab & _ & _ & _ & ->).
    by rewrite (table_inputs _ _ _ Htab).
  - intros individual. apply get_fitness_frame.
Qed.

Lemma training_set_invariant_witness :
  cfg_eps 2 !! "input_length" = Some (Int 2)
  ∧ Bounded_Problem_init Breadth (cfg_eps 2) []
    = ([Call_data_range; Call_problem_function [1; 0]; Call_problem_function [0; 1]],
       Ok Breadth_2)
  ∧ Forall (λ case, len case.1 = 2 ∧ len case.2 = arity Breadth 2)
         (training Breadth_2)
  ∧ [Call_data_range; Call_problem_function [1; 0]; Call_problem_function [0; 1]]
    = Call_data_range :: (Call_problem_function <$> (training Breadth_2).*1)
  ∧ ∀ individual, (get_fitness individual Breadth_2).1 = Breadth_2.
Proof.
  assert (Bounded_Problem_init Breadth (cfg_eps 2) []
          = ([Call_data_range; Call_problem_function [1; 0];
              Call_problem_function [0; 1]], Ok Breadth_2)) as Hinit
    by (vm_compute; reflexivity).
  split; [reflexivity|]. split; [exact Hinit|].
  exact (training_set_invariant Breadth (cfg_eps 2) 2 _ _ eq_refl Hinit).
Defined.

(** C4 (as amended): on a 0/1 vector of positive even length
    [input_length], [Binary_Multiply.problem_function] takes the two
    halves as base-2 integers a and b, most significant bit first, and
    returns the [input_length]-bit vector whose value is a * b, that is
    the binary numeral of the product with zeros added on the left; on
    [[1,1,1,0]] it returns [[0,1,1,0]]. *)
Theorem Binary_Multiply_halves :
  (∀ inputs input_length,
     len inputs = input_length → Forall is_bit inputs →
     0 < input_length → input_length `mod` 2 = 0 →
     let a := take (Z.to_nat (input_length `div` 2)) inputs in
     let b := drop (Z.to_nat (input_length `div` 2)) inputs in
     inputs = a ++ b ∧ len a = len b
     ∧ ∃ outputs,
         Binary_Multiply_problem_function inputs = Ok outputs
         ∧ len outputs = input_length
         ∧ Forall is_bit outputs
         ∧ int_of_bits outputs = int_of_bits a * int_of_bits b)
  ∧ Binary_Multiply_problem_function [1; 1; 1; 0] = Ok [0; 1; 1; 0].
Proof.
  split; [|done].
  intros inputs n Hlen Hbits Hpos Heven a b.
  assert (2 ≤ n) as Hn by (pose proof (Z.div_mod n 2); lia).
  split; [subst a b; by rewrite take_drop|].
  split.
  { subst a b. unfold len in *. rewrite length_take, length_drop.
    pose proof (Z.div_mod n 2). lia. }
  destruct (Binary_Multiply_product inputs Hbits ltac:(lia))
    as (outputs & Hout & Hlen' & Hobits & Hval).
  exists outputs. rewrite Hlen in Hlen', Hval. done.
Qed.

Lemma Binary_Multiply_halves_witness :
  len [1; 0; 1; 1] = 4 ∧ Forall is_bit [1; 0; 1; 1] ∧ 0 < 4 ∧ 4 `mod` 2 = 0 ∧
  let a := take (Z.to_nat (4 `div` 2)) [1; 0; 1; 1] in
  let b := drop (Z.to_nat (4 `div` 2)) [1; 0; 1; 1] in
  [1; 0; 1; 1] = a ++ b ∧ len a = len b
  ∧ ∃ outputs,
      Binary_Multiply_problem_function [1; 0; 1; 1] = Ok outputs
      ∧ len outputs = 4
      ∧ Forall is_bit outputs
      ∧ int_of_bits outputs = int_of_bits a * int_of_bits b.
Proof.
  assert (Forall is_bit [1; 0; 1; 1]) as Hbits
    by (repeat constructor; (by left) || (by right)).
  split; [reflexivity|]. split; [exact Hbits|]. split; [lia|].
  split; [reflexivity|].
  apply (proj1 Binary_Multiply_halves [1; 0; 1; 1] 4);
    [reflexivity | exact Hbits | lia | reflexivity].
Defined.

(** C4, counterexample: the empty vector is a 0/1 vector of even length,
    and on it [problem_function] raises [ValueError]. *)
Lemma Binary_Multiply_empty_input :
  len (@nil Z) `mod` 2 = 0 ∧ Forall is_bit []
  ∧ Binary_Multiply_problem_function [] = Raise ValueError.
Proof. by repeat split. Qed.

(** ** Missing configuration keys *)

Lemma score_loop_errors individual cases score p e :
  (score_loop individual cases score p).2 = Raise e → e = ZeroDivisionError.
Proof.
  revert score. induction cases as [|[inputs outputs] cases IH]; intros score.
  - done.
  - simpl. rewrite bind_run. unfold get. rewrite bind_run. unfold lift, py_div.
    case_bool_decide; [by intros [= <-]|]. apply IH.
Qed.

Lemma get_fitness_errors individual p e :
  (get_fitness individual p).2 = Raise e → e = ZeroDivisionError.
Proof.
  unfold get_fitness. rewrite bind_run. unfold get at 1. rewrite bind_run.
  pose proof (score_loop_errors individual (training p) 0%Qc p) as Hloop.
  destruct (score_loop _ _ _ _) as [p' [score|e']]; simpl in *;
    [|intros [= <-]; by apply Hloop].
  rewrite bind_run. unfold get. rewrite bind_run. unfold lift, py_div.
  case_bool_decide; [by intros [= <-]|done].
Qed.

(** C3 (as amended): constructing a Bounded_Problem variant from a
    configuration without [epsilon] raises at construction, and
    [get_fitness] of a Bounded_Problem never raises a missing-key error;
    but whenever the domain and the table can be computed, the whole
    training table is computed before the [KeyError] for [epsilon].
    Constructing Depth or Active from a configuration without
    [graph_length] succeeds, and the [KeyError] is raised by
    [get_fitness], at evaluation time. *)
Theorem missing_key_errors :
  (∀ c cfg0,
     cfg0 !! "epsilon" = None →
     (∃ t e, Bounded_Problem_init c cfg0 [] = (t, Raise e))
     ∧ ∀ domain training,
         data_range c cfg0 = Ok domain → table c domain = Ok training →
         Bounded_Problem_init c cfg0 []
         = (Call_data_range :: (Call_problem_function <$> domain),
            Raise (KeyError "epsilon")))
  ∧ (∀ p individual key, (get_fitness individual p).2 ≠ Raise (KeyError key))
  ∧ (∀ cfg0 individual,
       cfg0 !! "graph_length" = None →
       (∃ self, Depth_init cfg0 = Ok self
                ∧ (evaluate individual [0] ≠ [] →
                   Depth_get_fitness self individual
                   = Raise (KeyError "graph_length")))
       ∧ (∃ self, Active_init cfg0 = Ok self
                  ∧ Active_get_fitness self individual
                    = Raise (KeyError "graph_length"))).
Proof.
  split; [|split].
  - intros c cfg0 Heps. split; [by apply init_without_epsilon|].
    intros domain training Hdom Htab.
    rewrite (init_run_ok _ _ _ _ _ Hdom Htab), (getitem_None _ _ Heps). done.
  - intros p individual key Hkey. by apply get_fitness_errors in Hkey.
  - intros cfg0 individual Hg. split; eexists; (split; [reflexivity|]).
    + intros Hne. unfold Depth_get_fitness. simpl.
      destruct (evaluate individual [0]) as [|depth rest]; [done|]. simpl.
      by rewrite (getitem_None _ _ Hg).
    + unfold Active_get_fitness. simpl. by rewrite (getitem_None _ _ Hg).
Qed.

Lemma missing_key_errors_witness :
  cfg 2 !! "epsilon" = None ∧
  (∃ t e, Bounded_Problem_init Breadth (cfg 2) [] = (t, Raise e))
  ∧ ∀ domain training,
      data_range Breadth (cfg 2) = Ok domain → table Breadth domain = Ok training →
      Bounded_Problem_init Breadth (cfg 2) []
      = (Call_data_range :: (Call_problem_function <$> domain),
         Raise (KeyError "epsilon")).
Proof.
  split; [reflexivity|].
  apply (proj1 missing_key_errors Breadth (cfg 2)). reflexivity.
Defined.

(** C3, counterexample: without [epsilon], Binary_Multiply computes all
    four cases of its table before the [KeyError]; without
    [graph_length], Depth is constructed and [get_fitness] raises. *)
Lemma missing_key_raised_late :
  Bounded_Problem_init Binary_Multiply (cfg 2) []
  = ([Call_data_range; Call_problem_function [0; 0]; Call_problem_function [0; 1];
      Call_problem_function [1; 0]; Call_problem_function [1; 1]],
     Raise (KeyError "epsilon"))
  ∧ Depth_init ∅ = Ok {| problem_config := ∅ |}
  ∧ Depth_get_fitness {| problem_config := ∅ |} depth_three
    = Raise (KeyError "graph_length").
Proof. split; [vm_compute; reflexivity|]. split; reflexivity. Qed.

(** ** Flat and Depth *)

Lemma Flat_loop_counts genes correct total :
  Flat_loop genes correct total
  = (correct + Z.of_nat (length (filter (λ g, is_negative g) genes)),
     total + Z.of_nat (length (filter is_Some genes))).
Proof.
  revert correct total. induction genes as [|[g|] genes IH]; intros correct total.
  - simpl. f_equal; lia.
  - simpl. rewrite IH, !filter_cons. simpl.
    destruct (decide (is_Some (Some g))) as [_|Hn]; [|by destruct Hn].
    case_bool_decide; simpl; f_equal; lia.
  - simpl. rewrite IH, !filter_cons. simpl.
    destruct (decide (is_Some (@None Z))) as [[? ?]|_]; [done|].
    done.
Qed.

(** C2 (as amended): on an individual all of whose genes are the no-op
    marker, [Flat.get_fitness] raises [ZeroDivisionError]; it does not
    return 0. *)
Theorem Flat_all_noop individual :
  Forall (λ gene, gene = None) (genes individual) →
  Flat_get_fitness individual = Raise ZeroDivisionError.
Proof.
  intros Hnoop. unfold Flat_get_fitness. rewrite Flat_loop_counts.
  assert (filter is_Some (genes individual) = []) as ->.
  { induction Hnoop as [|g gs -> _ IH]; [done|].
    rewrite filter_cons. destruct (decide (is_Some (@None Z))) as [[? ?]|_]; done. }
  done.
Qed.

Lemma Flat_all_noop_witness :
  Forall (λ gene, gene = None) (genes silent)
  ∧ Flat_get_fitness silent = Raise ZeroDivisionError.
Proof.
  assert (Forall (λ gene, gene = None) (genes silent)) as Hnoop
    by repeat constructor.
  split; [exact Hnoop|]. exact (Flat_all_noop silent Hnoop).
Defined.

(** C2, counterexample: with the genes [[None, None]] the result is an
    exception, not the value 0. *)
Lemma Flat_noop_not_zero :
  Forall (λ gene, gene = None) (genes silent)
  ∧ Flat_get_fitness silent ≠ Ok 0%Qc.
Proof. split; [repeat constructor|]. vm_compute. discriminate. Qed.





(** * Further properties of the code *)

(** ** The operator library *)

(** X1: [nand] and [nor] return a 0/1 value on any integers; on 0/1
    operands they are the complements of [and_] and [or_], so all four
    entries of [binary_operators] map 0/1 operands to a 0/1 result. *)
Theorem binary_operators_bits :
  (∀ x y, is_bit (nand x y) ∧ is_bit (nor x y))
  ∧ (∀ x y, is_bit x → is_bit y →
       nand x y = 1 - and_ x y ∧ nor x y = 1 - or_ x y)
  ∧ (∀ op x y, op ∈ binary_operators → is_bit x → is_bit y → is_bit (op x y)).
Proof.
  assert (∀ x y, is_bit (nand x y) ∧ is_bit (nor x y)) as Hany.
  { intros x y. unfold nand, nor, py_not, is_bit.
    split; destruct (truthy _); auto. }
  assert (∀ x y, is_bit x → is_bit y →
            nand x y = 1 - and_ x y ∧ nor x y = 1 - or_ x y) as Hbits.
  { intros x y [-> | ->] [-> | ->]; by vm_compute. }
  split; [done|]. split; [done|].
  intros op x y Hop Hx Hy. unfold binary_operators in Hop.
  rewrite !elem_of_cons in Hop.
  destruct Hop as [-> | [-> | [-> | [-> | Hop]]]].
  - destruct Hx as [-> | ->], Hy as [-> | ->]; vm_compute; auto.
  - destruct Hx as [-> | ->], Hy as [-> | ->]; vm_compute; auto.
  - apply Hany.
  - apply Hany.
  - by apply elem_of_nil in Hop.
Qed.

Lemma binary_operators_bits_witness :
  is_bit 1 ∧ is_bit 0 ∧ nand 1 0 = 1 - and_ 1 0 ∧ nor 1 0 = 1 - or_ 1 0.
Proof.
  assert (is_bit 1) as H1 by (by right).
  assert (is_bit 0) as H0 by (by left).
  split; [exact H1|]. split; [exact H0|].
  exact (proj1 (proj2 binary_operators_bits) 1 0 H1 H0).
Defined.

(** ** More on Binary_Multiply.problem_function *)

Lemma bits_unique u v :
  Forall is_bit u → Forall is_bit v → length u = length v →
  int_of_bits u = int_of_bits v → u = v.
Proof.
  revert v. induction u as [|x u IH] using rev_ind; intros v Hu Hv Hlen Hval.
  - symmetry. by apply nil_length_inv.
  - destruct (decide (v = [])) as [->|Hne].
    { rewrite length_app in Hlen. simpl in Hlen. lia. }
    destruct (exists_last Hne) as (w & y & ->).
    rewrite !length_app in Hlen. simpl in Hlen.
    apply Forall_app in Hu as [Hu Hx]. rewrite Forall_singleton in Hx.
    apply Forall_app in Hv as [Hw Hy]. rewrite Forall_singleton in Hy.
    rewrite !int_of_bits_snoc in Hval.
    assert (x = y ∧ int_of_bits u = int_of_bits w) as [-> Heq]
      by (destruct Hx as [-> | ->], Hy as [-> | ->]; lia).
    f_equal. apply IH; [done|done|lia|done].
Qed.

(** X2: on a 0/1 vector with fewer than two bits [problem_function]
    raises [ValueError]; on every longer one, of odd length too, it
    multiplies the first floor(n/2) bits by the remaining bits and
    returns exactly n bits whose value is the product: the product always
    fits, nothing is cut off. *)
Theorem Binary_Multiply_any_length inputs :
  Forall is_bit inputs →
  (len inputs < 2 → Binary_Multiply_problem_function inputs = Raise ValueError)
  ∧ (2 ≤ len inputs →
     ∃ outputs,
       Binary_Multiply_problem_function inputs = Ok outputs
       ∧ len outputs = len inputs
       ∧ Forall is_bit outputs
       ∧ int_of_bits outputs
         = int_of_bits (take (Z.to_nat (len inputs `div` 2)) inputs)
           * int_of_bits (drop (Z.to_nat (len inputs `div` 2)) inputs)).
Proof.
  intros Hbits. split.
  - intros Hshort. by apply Binary_Multiply_short.
  - intros Hlong. by apply Binary_Multiply_product.
Qed.

Lemma Binary_Multiply_any_length_witness :
  Forall is_bit [1; 1; 1]
  ∧ ∃ outputs,
      Binary_Multiply_problem_function [1; 1; 1] = Ok outputs
      ∧ len outputs = len [1; 1; 1]
      ∧ Forall is_bit outputs
      ∧ int_of_bits outputs
        = int_of_bits (take (Z.to_nat (len [1; 1; 1] `div` 2)) [1; 1; 1])
          * int_of_bits (drop (Z.to_nat (len [1; 1; 1] `div` 2)) [1; 1; 1]).
Proof.
  assert (Forall is_bit [1; 1; 1]) as Hbits by (repeat constructor; by right).
  split; [exact Hbits|].
  apply (proj2 (Binary_Multiply_any_length [1; 1; 1] Hbits)).
  unfold len. simpl. lia.
Defined.

(** X3: the two halves of an even-length vector can be exchanged: a
    followed by b and b followed by a have the same expected output. *)
Theorem Binary_Multiply_swap a b :
  Forall is_bit a → Forall is_bit b → length a = length b → a ≠ [] →
  Binary_Multiply_problem_function (a ++ b)
  = Binary_Multiply_problem_function (b ++ a).
Proof.
  intros Ha Hb Hlen Hne.
  assert (0 < length a)%nat as Hpos by (destruct a; [done|simpl; lia]).
  assert (∀ u v : list Z, length u = length v →
            Z.to_nat (len (u ++ v) `div` 2) = length u) as Hmid.
  { intros u v Huv. unfold len. rewrite length_app, <-Huv.
    replace (Z.of_nat (length u + length u)) with (Z.of_nat (length u) * 2) by lia.
    rewrite Z.div_mul by lia. lia. }
  destruct (Binary_Multiply_product (a ++ b)) as (o1 & Ho1 & Hl1 & Hb1 & Hv1).
  { by apply Forall_app. }
  { unfold len. rewrite length_app. lia. }
  destruct (Binary_Multiply_product (b ++ a)) as (o2 & Ho2 & Hl2 & Hb2 & Hv2).
  { by apply Forall_app. }
  { unfold len. rewrite length_app. lia. }
  rewrite Ho1, Ho2. f_equal.
  rewrite (Hmid a b Hlen), take_app_length, drop_app_length in Hv1.
  rewrite (Hmid b a (eq_sym Hlen)), take_app_length, drop_app_length in Hv2.
  apply bits_unique; [done|done| |lia].
  unfold len in *. rewrite !length_app in *. lia.
Qed.

Lemma Binary_Multiply_swap_witness :
  Forall is_bit [1; 1] ∧ Forall is_bit [1; 0]
  ∧ length [1; 1] = length [1; 0] ∧ [1; 1] ≠ ([] : list Z)
  ∧ Binary_Multiply_problem_function ([1; 1] ++ [1; 0])
    = Binary_Multiply_problem_function ([1; 0] ++ [1; 1]).
Proof.
  assert (Forall is_bit [1; 1]) as Ha by (repeat constructor; by right).
  assert (Forall is_bit [1; 0]) as Hb
    by (repeat constructor; (by left) || (by right)).
  split; [exact Ha|]. split; [exact Hb|]. split; [reflexivity|].
  split; [discriminate|].
  apply (Binary_Multiply_swap [1; 1] [1; 0] Ha Hb); [reflexivity|discriminate].
Defined.

(** ** More on the construction of a Bounded_Problem *)

Lemma map_result_total {A B} (f : A → result B) xs :
  (∀ x, x ∈ xs → ∃ y, f x = Ok y) →
  ∃ ys, map_result f xs = Ok ys ∧ length ys = length xs.
Proof.
  induction xs as [|x xs IH]; intros Hf.
  - by exists [].
  - destruct (Hf x) as [y Hy]; [left|].
    destruct IH as (ys & Hys & Hlen); [intros z Hz; apply Hf; by right|].
    exists (y :: ys). simpl. rewrite Hy. simpl. rewrite Hys. simpl.
    split; [done|]. by rewrite Hlen.
Qed.

Lemma binary_range_cube cfg0 n :
  cfg0 !! "input_length" = Some (Int n) → 0 ≤ n →
  binary_range cfg0 = Ok (cube (Z.to_nat n)).
Proof.
  intros Hcfg Hn. unfold binary_range. rewrite (getitem_Some _ _ _ Hcfg). simpl.
  unfold product. by rewrite bool_decide_eq_false_2 by lia.
Qed.

Lemma table_length c domain training :
  table c domain = Ok training → length training = length domain.
Proof. intros Htab%table_Forall2. symmetry. by eapply Forall2_length. Qed.

(** X4: with [epsilon] present, Binary_Multiply can be constructed exactly
    from [input_length] 2 on, and then holds 2^n training cases; for
    [input_length] 1, 0 or a negative number construction raises
    [ValueError]. *)
Theorem Binary_Multiply_constructible cfg0 n eps :
  cfg0 !! "input_length" = Some (Int n) →
  cfg0 !! "epsilon" = Some eps →
  (2 ≤ n →
   ∃ t p, Bounded_Problem_init Binary_Multiply cfg0 [] = (t, Ok p)
          ∧ length (training p) = (2 ^ Z.to_nat n)%nat
          ∧ epsilon p = eps)
  ∧ (n < 2 →
     (Bounded_Problem_init Binary_Multiply cfg0 []).2 = Raise ValueError).
Proof.
  intros Hcfg Heps. split.
  - intros Hn.
    pose proof (binary_range_cube _ _ Hcfg ltac:(lia)) as Hdom.
    destruct (map_result_total
                (λ inputs, outputs ← problem_function Binary_Multiply inputs;
                           Ok (inputs, outputs))
                (cube (Z.to_nat n))) as (training & Htab & Hlen).
    { intros inputs [Hlen Hbits]%cube_shape.
      destruct (Binary_Multiply_product inputs Hbits) as (outputs & Hout & _).
      { unfold len. lia. }
      exists (inputs, outputs). simpl. by rewrite Hout. }
    eexists _, _. split.
    + rewrite (init_run_ok Binary_Multiply cfg0 _ training [] Hdom Htab).
      by rewrite (getitem_Some _ _ _ Heps).
    + simpl. by rewrite Hlen, cube_length.
  - intros Hn. rewrite init_snd. simpl.
    destruct (decide (n < 0)) as [Hneg|Hnonneg].
    + unfold binary_range. rewrite (getitem_Some _ _ _ Hcfg). simpl.
      unfold product. by rewrite bool_decide_eq_true_2.
    + rewrite (binary_range_cube _ _ Hcfg) by lia. simpl.
      assert (n = 0 ∨ n = 1) as [-> | ->] by lia; reflexivity.
Qed.

Lemma Binary_Multiply_constructible_witness :
  cfg_eps 2 !! "input_length" = Some (Int 2)
  ∧ cfg_eps 2 !! "epsilon" = Some (Int 0)
  ∧ ∃ t p, Bounded_Problem_init Binary_Multiply (cfg_eps 2) [] = (t, Ok p)
           ∧ length (training p) = (2 ^ Z.to_nat 2)%nat
           ∧ epsilon p = Int 0.
Proof.
  split; [reflexivity|]. split; [reflexivity|].
  apply (proj1 (Binary_Multiply_constructible (cfg_eps 2) 2 (Int 0)
                  eq_refl eq_refl)).
  lia.
Defined.

Lemma sum_one_hot n i : foldl Z.add 0 (one_hot n i) = 1.
Proof.
  assert (∀ k acc, foldl Z.add acc (replicate k 0) = acc) as Hzeros.
  { induction k as [|k IH]; intros acc; [done|]. simpl. rewrite IH. lia. }
  unfold one_hot. rewrite !foldl_app, Hzeros. simpl. by rewrite Hzeros.
Qed.

(** X5: the training table of Breadth is, for each position i below
    [input_length], the one-hot vector of i paired with the expected
    output [[1]]: no case expects 0, and for an [input_length] of 0 or
    less the instance is constructed with an empty table. *)
Theorem Breadth_table cfg0 n eps :
  cfg0 !! "input_length" = Some (Int n) →
  cfg0 !! "epsilon" = Some eps →
  Bounded_Problem_init Breadth cfg0 []
  = (Call_data_range :: (Call_problem_function <$> (one_hot n <$> range n)),
     Ok {| cls := Breadth; config := cfg0;
           training := (λ i, (one_hot n i, [1])) <$> range n;
           epsilon := eps |})
  ∧ (n ≤ 0 → range n = []).
Proof.
  intros Hcfg Heps. split; [|intros Hn; unfold range; by apply seqZ_nil].
  assert (table Breadth (one_hot n <$> range n)
          = Ok ((λ i, (one_hot n i, [1])) <$> range n)) as Htab.
  { unfold table.
    rewrite (map_result_ext _ (λ inputs, (inputs, [1]))).
    - by rewrite <-list_fmap_compose.
    - intros inputs (i & -> & _)%list_elem_of_fmap. simpl.
      unfold Breadth_problem_function. by rewrite sum_one_hot. }
  rewrite (init_run_ok Breadth cfg0 _ _ [] (single_bit_set_eq _ _ Hcfg) Htab).
  by rewrite (getitem_Some _ _ _ Heps).
Qed.

Lemma Breadth_table_witness :
  cfg_eps 2 !! "input_length" = Some (Int 2)
  ∧ cfg_eps 2 !! "epsilon" = Some (Int 0)
  ∧ Bounded_Problem_init Breadth (cfg_eps 2) []
    = (Call_data_range :: (Call_problem_function <$> (one_hot 2 <$> range 2)),
       Ok {| cls := Breadth; config := cfg_eps 2;
             training := (λ i, (one_hot 2 i, [1])) <$> range 2;
             epsilon := Int 0 |})
  ∧ (2 ≤ 0 → range 2 = []).
Proof.
  split; [reflexivity|]. split; [reflexivity|].
  exact (Breadth_table (cfg_eps 2) 2 (Int 0) eq_refl eq_refl).
Defined.

(** X6: when the configuration has no [input_length], construction of
    either variant raises [KeyError] for [input_length] from [data_range],
    before [problem_function] is called and before [epsilon] is looked
    at; when [input_length] is a float it raises [TypeError] at the same
    point. *)
Theorem missing_input_length c cfg0 :
  (cfg0 !! "input_length" = None →
   Bounded_Problem_init c cfg0 []
   = ([Call_data_range], Raise (KeyError "input_length")))
  ∧ (∀ q, cfg0 !! "input_length" = Some (Float q) →
          Bounded_Problem_init c cfg0 [] = ([Call_data_range], Raise TypeError)).
Proof.
  split.
  - intros Hcfg.
    assert (data_range c cfg0 = Raise (KeyError "input_length")) as Hdom.
    { destruct c; simpl; unfold binary_range, single_bit_set;
        by rewrite (getitem_None _ _ Hcfg). }
    unfold Bounded_Problem_init. rewrite !bind_run. unfold log, lift.
    by rewrite Hdom.
  - intros q Hcfg.
    assert (data_range c cfg0 = Raise TypeError) as Hdom.
    { destruct c; simpl; unfold binary_range, single_bit_set;
        by rewrite (getitem_Some _ _ _ Hcfg). }
    unfold Bounded_Problem_init. rewrite !bind_run. unfold log, lift.
    by rewrite Hdom.
Qed.

Lemma missing_input_length_witness :
  (∅ : gmap string value) !! "input_length" = None
  ∧ Bounded_Problem_init Binary_Multiply ∅ []
    = ([Call_data_range], Raise (KeyError "input_length")).
Proof.
  split; [reflexivity|].
  exact (proj1 (missing_input_length Binary_Multiply ∅) eq_refl).
Defined.

Lemma one_hot_inj n i j :
  0 ≤ i < n → 0 ≤ j < n → one_hot n i = one_hot n j → i = j.
Proof.
  intros Hi Hj Heq.
  pose proof (one_hot_lookup n i (Z.to_nat i) Hi ltac:(lia)) as Hii.
  pose proof (one_hot_lookup n j (Z.to_nat i) Hj ltac:(lia)) as Hji.
  rewrite Heq, Hji in Hii. repeat case_decide; (lia || done).
Qed.

Lemma one_hots_NoDup n : NoDup (one_hot n <$> range n).
Proof.
  apply NoDup_fmap_2_strong; [|apply NoDup_seqZ].
  intros i j [Hi Hi']%elem_of_seqZ [Hj Hj']%elem_of_seqZ.
  apply one_hot_inj; lia.
Qed.

(** X7: the training table of a constructed instance is a lookup table
    for [problem_function] over the domain: its inputs are the vectors of
    [data_range] in order, no input occurs twice, and every case pairs its
    inputs with what [problem_function] returns on them. *)
Theorem training_is_lookup_table c cfg0 t p :
  Bounded_Problem_init c cfg0 [] = (t, Ok p) →
  data_range c cfg0 = Ok (training p).*1
  ∧ NoDup (training p).*1
  ∧ ∀ inputs outputs,
      (inputs, outputs) ∈ training p → problem_function c inputs = Ok outputs.
Proof.
  intros (domain & Hdom & Htab & _)%init_inv.
  rewrite (table_inputs _ _ _ Htab). split; [done|]. split.
  - destruct c; simpl in Hdom.
    + apply binary_range_inv in Hdom as (n & _ & _ & ->). apply cube_NoDup.
    + apply single_bit_set_inv in Hdom as (n & _ & ->). apply one_hots_NoDup.
  - intros inputs outputs Hin. apply table_Forall2 in Htab.
    apply list_elem_of_lookup in Hin as [i Hi].
    destruct (Forall2_lookup_r _ _ _ _ _ Htab Hi) as (x & _ & Hx & Hpf).
    simpl in *. by subst x.
Qed.

Lemma training_is_lookup_table_witness :
  Bounded_Problem_init Breadth (cfg_eps 2) []
  = ([Call_data_range; Call_problem_function [1; 0]; Call_problem_function [0; 1]],
     Ok Breadth_2)
  ∧ data_range Breadth (cfg_eps 2) = Ok (training Breadth_2).*1
  ∧ NoDup (training Breadth_2).*1
  ∧ ∀ inputs outputs,
      (inputs, outputs) ∈ training Breadth_2 →
      problem_function Breadth inputs = Ok outputs.
Proof.
  assert (Bounded_Problem_init Breadth (cfg_eps 2) []
          = ([Call_data_range; Call_problem_function [1; 0];
              Call_problem_function [0; 1]], Ok Breadth_2)) as Hinit
    by (vm_compute; reflexivity).
  split; [exact Hinit|].
  exact (training_is_lookup_table Breadth (cfg_eps 2) _ _ Hinit).
Defined.

(** X8: the one-hot vectors of [single_bit_set] are pairwise distinct and
    all occur among the vectors of [binary_range] for the same
    configuration. *)
Theorem single_bit_set_within_binary_range cfg0 n :
  cfg0 !! "input_length" = Some (Int n) →
  0 ≤ n →
  ∃ hot all,
    single_bit_set cfg0 = Ok hot ∧ binary_range cfg0 = Ok all
    ∧ NoDup hot ∧ ∀ v, v ∈ hot → v ∈ all.
Proof.
  intros Hcfg Hn. exists (one_hot n <$> range n), (cube (Z.to_nat n)).
  split; [by apply single_bit_set_eq|]. split; [by apply binary_range_cube|].
  split; [apply one_hots_NoDup|].
  intros v (i & -> & [Hi Hi']%elem_of_seqZ)%list_elem_of_fmap.
  apply cube_complete.
  - pose proof (one_hot_length n i ltac:(lia)) as Hlen. unfold len in Hlen. lia.
  - unfold one_hot. rewrite !Forall_app, Forall_singleton.
    repeat split; try apply Forall_replicate; (by left) || (by right).
Qed.

Lemma single_bit_set_within_binary_range_witness :
  cfg 3 !! "input_length" = Some (Int 3) ∧ 0 ≤ 3
  ∧ ∃ hot all,
      single_bit_set (cfg 3) = Ok hot ∧ binary_range (cfg 3) = Ok all
      ∧ NoDup hot ∧ ∀ v, v ∈ hot → v ∈ all.
Proof.
  split; [reflexivity|]. split; [lia|].
  apply (single_bit_set_within_binary_range (cfg 3) 3); [reflexivity|lia].
Defined.

(** ** More on Bounded_Problem.get_fitness *)

Section more_fitness.

Local Open Scope Qc_scope.

Lemma Qcabs_zero : Qcabs 0 = 0.
Proof. apply Qcabs_pos, Qcle_refl. Qed.

Lemma Qc_div_same x : x ≠ 0 → x / x = 1.
Proof. intros Hx. unfold Qcdiv. by apply Qcmult_inv_r. Qed.

Lemma sum_Qc_ones xs : Forall (λ x, x = 1) xs → sum_Qc xs = Qc_of_Z (len xs).
Proof.
  induction 1 as [|x xs -> _ IH].
  - change (len (@nil Qc)) with 0%Z. by rewrite Z2Qc_inj_0.
  - change (sum_Qc (1 :: xs)) with (1 + sum_Qc xs). rewrite IH.
    unfold len. simpl length.
    rewrite Nat2Z.inj_succ, <-Z.add_1_l, Z2Qc_inj_add, Z2Qc_inj_1. done.
Qed.

Lemma sum_Qc_fmap_le {A} (f g : A → Qc) (l : list A) :
  Forall (λ x, f x ≤ g x) l → sum_Qc (f <$> l) ≤ sum_Qc (g <$> l).
Proof.
  induction 1 as [|x l Hx _ IH]; [apply Qcle_refl|].
  rewrite !fmap_cons.
  change (f x + sum_Qc (f <$> l) ≤ g x + sum_Qc (g <$> l)).
  by apply Qcplus_le_compat.
Qed.

Lemma training_nonzero p : training p ≠ [] → Qc_of_Z (len (training p)) ≠ 0.
Proof.
  intros Hne. apply Qc_of_Z_nonzero. unfold len.
  destruct (training p); [done|simpl; lia].
Qed.

Lemma miss_count_all eps answers outputs :
  length answers = length outputs →
  (∀ i a o, answers !! i = Some a → outputs !! i = Some o →
            eps < Qcabs (a - Qc_of_Z o)) →
  miss_count eps answers outputs = length outputs.
Proof.
  revert outputs. induction answers as [|a answers IH]; intros outputs Hlen Hmiss.
  - rewrite miss_count_nil_l. by destruct outputs.
  - destruct outputs as [|o outputs]; [done|].
    rewrite miss_count_cons, bool_decide_eq_true_2 by (by apply (Hmiss 0%nat)).
    simpl. f_equal. apply IH; [by injection Hlen|].
    intros i b c. apply (Hmiss (S i)).
Qed.

Lemma miss_count_anti eps1 eps2 answers outputs :
  eps1 ≤ eps2 →
  (miss_count eps2 answers outputs ≤ miss_count eps1 answers outputs)%nat.
Proof.
  intros Heps. revert outputs.
  induction answers as [|a answers IH]; intros outputs.
  - by rewrite !miss_count_nil_l.
  - destruct outputs as [|o outputs]; [done|].
    rewrite !miss_count_cons. specialize (IH outputs).
    case_bool_decide as H2; case_bool_decide as H1; simpl; try lia.
    exfalso. apply H1. by eapply Qcle_lt_trans.
Qed.

Lemma fitness_formula_zero eps individual p :
  training p ≠ [] →
  Forall (λ case, (0 < len case.2)%Z
                  ∧ miss_count eps (evaluate individual case.1) case.2
                    = length case.2) (training p) →
  fitness_formula (case_error eps individual) p = 0.
Proof.
  intros Hne Hall. unfold fitness_formula.
  rewrite sum_Qc_ones.
  - unfold len. rewrite length_fmap.
    rewrite Qc_div_same by (by apply training_nonzero). ring.
  - apply Forall_fmap. eapply Forall_impl; [exact Hall|].
    intros case [Hpos Hcount]. simpl. unfold case_error. rewrite Hcount.
    apply Qc_div_same. apply Qc_of_Z_nonzero. unfold len in *. lia.
Qed.

Lemma fitness_formula_mono eps1 eps2 individual p :
  eps1 ≤ eps2 →
  training p ≠ [] →
  Forall (λ case, (0 < len case.2)%Z) (training p) →
  fitness_formula (case_error eps1 individual) p
  ≤ fitness_formula (case_error eps2 individual) p.
Proof.
  intros Heps Hne Hpos. unfold fitness_formula.
  assert (0 < Qc_of_Z (len (training p))) as Hn.
  { rewrite <-Z2Qc_inj_0. apply (proj1 (Z2Qc_inj_lt _ _)). unfold len.
    destruct (training p); [done|simpl; lia]. }
  assert (sum_Qc (case_error eps2 individual <$> training p)
          ≤ sum_Qc (case_error eps1 individual <$> training p)) as Hsum.
  { apply sum_Qc_fmap_le. eapply Forall_impl; [exact Hpos|].
    intros case Hlen. simpl. unfold case_error, Qcdiv.
    apply Qcmult_le_compat_r.
    - apply (proj1 (Z2Qc_inj_le _ _)). apply inj_le. by apply miss_count_anti.
    - apply Qclt_le_weak, Qcinv_pos. rewrite <-Z2Qc_inj_0.
      by apply (proj1 (Z2Qc_inj_lt _ _)). }
  unfold Qcminus. apply (proj1 (Qcplus_le_mono_l _ _ 1)). apply Qcopp_le_compat.
  unfold Qcdiv. apply Qcmult_le_compat_r; [done|].
  by apply Qclt_le_weak, Qcinv_pos.
Qed.

Lemma score_loop_ext individual1 individual2 cases score p :
  Forall (λ case, zip (evaluate individual1 case.1) case.2
                  = zip (evaluate individual2 case.1) case.2) cases →
  score_loop individual1 cases score p = score_loop individual2 cases score p.
Proof.
  intros Hzip. revert score.
  induction Hzip as [|[inputs outputs] cases Hcase _ IH]; intros score; [done|].
  simpl in *. rewrite !bind_run. unfold get. rewrite !bind_run. rewrite Hcase.
  unfold lift. destruct (py_div _ _) as [error|e]; [apply IH|done].
Qed.

End more_fitness.

Lemma data_range_input_length c cfg1 cfg2 :
  cfg1 !! "input_length" = cfg2 !! "input_length" →
  data_range c cfg1 = data_range c cfg2.
Proof.
  intros Heq. destruct c; simpl; unfold binary_range, single_bit_set, getitem;
    by rewrite Heq.
Qed.

Lemma instance_nonempty c cfg0 n t t' p :
  cfg0 !! "input_length" = Some (Int n) →
  Bounded_Problem_init c cfg0 t = (t', Ok p) →
  c = Binary_Multiply ∨ 0 < n →
  training p ≠ [].
Proof.
  intros Hcfg (domain & Hdom & Htab & _)%init_inv Hc.
  apply table_length in Htab. intros Hempty. rewrite Hempty in Htab.
  simpl in Htab. destruct c; simpl in Hdom.
  - apply binary_range_inv in Hdom as (n' & _ & _ & ->).
    rewrite cube_length in Htab.
    pose proof (Nat.pow_nonzero 2 (Z.to_nat n') ltac:(lia)). lia.
  - apply single_bit_set_inv in Hdom as (n' & Hcfg' & ->).
    assert (n' = n) as -> by congruence.
    unfold range in Htab. rewrite length_fmap, length_seqZ in Htab.
    destruct Hc as [?|Hn]; [done|lia].
Qed.



(** X10: an individual that reproduces every expected output exactly gets
    fitness 1 when epsilon is not negative, and fitness 0 when epsilon is
    negative, since then even a difference of 0 exceeds epsilon. *)
Theorem get_fitness_exact_answers c cfg0 t p individual :
  Bounded_Problem_init c cfg0 [] = (t, Ok p) →
  training p ≠ [] →
  Forall (λ case, evaluate individual case.1 = Qc_of_Z <$> case.2) (training p) →
  ((0 ≤ to_float (epsilon p))%Qc → get_fitness individual p = (p, Ok 1%Qc))
  ∧ ((to_float (epsilon p) < 0)%Qc → get_fitness individual p = (p, Ok 0%Qc)).
Proof.
  intros Hinit Hne Hexact.
  pose proof (instance_arity_positive _ _ _ _ _ Hinit) as Hpos.
  assert (∀ case i a o,
            evaluate individual case.1 = Qc_of_Z <$> case.2 →
            evaluate individual case.1 !! i = Some a → case.2 !! i = Some o →
            Qcabs (a - Qc_of_Z o) = 0%Qc) as Hzero.
  { intros case i a o Heq Ha Ho. rewrite Heq, list_lookup_fmap, Ho in Ha.
    injection Ha as <-. replace (Qc_of_Z o - Qc_of_Z o)%Qc with 0%Qc by ring.
    apply Qcabs_zero. }
  rewrite get_fitness_run by done. split; intros Heps; do 2 f_equal.
  - apply (fitness_formula_bounds _ individual p Hne Hpos).
    eapply Forall_impl; [exact Hexact|].
    intros case Heq i a o Ha Ho. by rewrite (Hzero case i a o).
  - apply fitness_formula_zero; [done|].
    rewrite Forall_forall in Hexact, Hpos. apply Forall_forall. intros case Hin.
    split; [by apply Hpos|]. apply miss_count_all.
    + by rewrite (Hexact case Hin), length_fmap.
    + intros i a o Ha Ho. by rewrite (Hzero case i a o (Hexact case Hin)).
Qed.

Lemma get_fitness_exact_answers_witness :
  Bounded_Problem_init Breadth (cfg_eps 2) []
  = ([Call_data_range; Call_problem_function [1; 0]; Call_problem_function [0; 1]],
     Ok Breadth_2)
  ∧ (0 ≤ to_float (epsilon Breadth_2))%Qc
  ∧ get_fitness constant_one Breadth_2 = (Breadth_2, Ok 1%Qc).
Proof.
  assert (Bounded_Problem_init Breadth (cfg_eps 2) []
          = ([Call_data_range; Call_problem_function [1; 0];
              Call_problem_function [0; 1]], Ok Breadth_2)) as Hinit
    by (vm_compute; reflexivity).
  assert (0 ≤ to_float (epsilon Breadth_2))%Qc as Heps by (by vm_compute).
  assert (training Breadth_2 ≠ []) as Hne by discriminate.
  assert (Forall (λ case, evaluate constant_one case.1 = Qc_of_Z <$> case.2)
                 (training Breadth_2)) as Hexact
    by (repeat (constructor; [simpl; by rewrite Z2Qc_inj_1|]); constructor).
  split; [exact Hinit|]. split; [exact Heps|].
  exact (proj1 (get_fitness_exact_answers Breadth (cfg_eps 2) _ _ constant_one
                  Hinit Hne Hexact) Heps).
Defined.

(** X11: a larger epsilon never lowers the fitness: of two instances built
    with the same [input_length], the one whose epsilon is at least as
    large gives the same individual at least as high a fitness. *)
Theorem get_fitness_monotone_in_epsilon c cfg1 cfg2 t1 t2 p1 p2 individual :
  Bounded_Problem_init c cfg1 [] = (t1, Ok p1) →
  Bounded_Problem_init c cfg2 [] = (t2, Ok p2) →
  cfg1 !! "input_length" = cfg2 !! "input_length" →
  (to_float (epsilon p1) ≤ to_float (epsilon p2))%Qc →
  training p1 ≠ [] →
  ∃ f1 f2,
    get_fitness individual p1 = (p1, Ok f1)
    ∧ get_fitness individual p2 = (p2, Ok f2)
    ∧ (f1 ≤ f2)%Qc.
Proof.
  intros Hinit1 Hinit2 Hlen Heps Hne.
  pose proof (instance_arity_positive _ _ _ _ _ Hinit1) as Hpos.
  assert (training p2 = training p1) as Hsame.
  { apply init_inv in Hinit1 as (d1 & Hd1 & Htab1 & _).
    apply init_inv in Hinit2 as (d2 & Hd2 & Htab2 & _).
    rewrite (data_range_input_length c cfg1 cfg2 Hlen), Hd2 in Hd1.
    injection Hd1 as <-. congruence. }
  eexists _, _. split; [by apply get_fitness_run|].
  split; [apply get_fitness_run; by rewrite Hsame|].
  unfold fitness_formula at 2. rewrite Hsame.
  by apply fitness_formula_mono.
Qed.

Lemma get_fitness_monotone_in_epsilon_witness :
  Bounded_Problem_init Breadth (cfg_eps 2) []
  = ([Call_data_range; Call_problem_function [1; 0]; Call_problem_function [0; 1]],
     Ok Breadth_2)
  ∧ Bounded_Problem_init Breadth cfg_wide []
    = ([Call_data_range; Call_problem_function [1; 0]; Call_problem_function [0; 1]],
       Ok Breadth_2_wide)
  ∧ ∃ f1 f2,
      get_fitness depth_three Breadth_2 = (Breadth_2, Ok f1)
      ∧ get_fitness depth_three Breadth_2_wide = (Breadth_2_wide, Ok f2)
      ∧ (f1 ≤ f2)%Qc.
Proof.
  assert (Bounded_Problem_init Breadth (cfg_eps 2) []
          = ([Call_data_range; Call_problem_function [1; 0];
              Call_problem_function [0; 1]], Ok Breadth_2)) as Hinit1
    by (vm_compute; reflexivity).
  assert (Bounded_Problem_init Breadth cfg_wide []
          = ([Call_data_range; Call_problem_function [1; 0];
              Call_problem_function [0; 1]], Ok Breadth_2_wide)) as Hinit2
    by (vm_compute; reflexivity).
  split; [exact Hinit1|]. split; [exact Hinit2|].
  apply (get_fitness_monotone_in_epsilon Breadth _ _ _ _ _ _ depth_three
           Hinit1 Hinit2); [reflexivity | by vm_compute | discriminate].
Defined.

(** X12: answers beyond the expected arity are ignored: two individuals
    whose answers agree on the first len(outputs) positions of every case
    get the same result from [get_fitness], on any instance. *)
Theorem get_fitness_ignores_surplus p individual1 individual2 :
  Forall (λ case, take (length case.2) (evaluate individual1 case.1)
                  = take (length case.2) (evaluate individual2 case.1))
         (training p) →
  get_fitness individual1 p = get_fitness individual2 p.
Proof.
  intros Hagree. unfold get_fitness. rewrite !bind_run. unfold get at 1 3.
  rewrite !bind_run.
  rewrite (score_loop_ext individual1 individual2); [done|].
  eapply Forall_impl; [exact Hagree|]. intros [inputs outputs] Htake.
  simpl in *.
  rewrite <-(zip_with_take_l pair (evaluate individual1 inputs) outputs),
          <-(zip_with_take_l pair (evaluate individual2 inputs) outputs).
  by rewrite Htake.
Qed.

Lemma get_fitness_ignores_surplus_witness :
  Forall (λ case, take (length case.2) (evaluate constant_one case.1)
                  = take (length case.2) (evaluate verbose_one case.1))
         (training Breadth_2)
  ∧ get_fitness constant_one Breadth_2 = get_fitness verbose_one Breadth_2.
Proof.
  assert (Forall (λ case, take (length case.2) (evaluate constant_one case.1)
                          = take (length case.2) (evaluate verbose_one case.1))
                 (training Breadth_2)) as Hagree by repeat constructor.
  split; [exact Hagree|].
  exact (get_fitness_ignores_surplus Breadth_2 constant_one verbose_one Hagree).
Defined.

(** X13: on a constructed instance [get_fitness] returns a value between
    0 and 1 for every individual, whatever the arity of its answers,
    whenever the instance is a Binary_Multiply or was built with a
    positive [input_length]; on a Breadth built with [input_length] 0 or
    less it raises [ZeroDivisionError]. *)
Theorem get_fitness_outcomes c cfg0 n t p individual :
  cfg0 !! "input_length" = Some (Int n) →
  Bounded_Problem_init c cfg0 [] = (t, Ok p) →
  (c = Binary_Multiply ∨ 0 < n →
   ∃ f, get_fitness individual p = (p, Ok f) ∧ (0 ≤ f ∧ f ≤ 1)%Qc)
  ∧ (c = Breadth → n ≤ 0 →
     get_fitness individual p = (p, Raise ZeroDivisionError)).
Proof.
  intros Hcfg Hinit. split.
  - intros Hc.
    pose proof (instance_nonempty _ _ _ _ _ _ Hcfg Hinit Hc) as Hne.
    pose proof (instance_arity_positive _ _ _ _ _ Hinit) as Hpos.
    eexists. split; [by apply get_fitness_run|].
    destruct (fitness_formula_bounds (to_float (epsilon p)) individual p Hne Hpos)
      as (H0 & H1 & _). done.
  - intros -> Hn. apply get_fitness_empty.
    apply init_inv in Hinit as (domain & Hdom & Htab & _). simpl in Hdom.
    apply single_bit_set_inv in Hdom as (n' & Hcfg' & ->).
    assert (n' = n) as -> by congruence.
    apply table_length in Htab.
    unfold range in Htab. rewrite length_fmap, length_seqZ in Htab.
    apply nil_length_inv. lia.
Qed.

Lemma get_fitness_outcomes_witness :
  cfg_eps 2 !! "input_length" = Some (Int 2)
  ∧ Bounded_Problem_init Breadth (cfg_eps 2) []
    = ([Call_data_range; Call_problem_function [1; 0]; Call_problem_function [0; 1]],
       Ok Breadth_2)
  ∧ ∃ f, get_fitness verbose_one Breadth_2 = (Breadth_2, Ok f)
         ∧ (0 ≤ f ∧ f ≤ 1)%Qc.
Proof.
  assert (Bounded_Problem_init Breadth (cfg_eps 2) []
          = ([Call_data_range; Call_problem_function [1; 0];
              Call_problem_function [0; 1]], Ok Breadth_2)) as Hinit
    by (vm_compute; reflexivity).
  split; [reflexivity|]. split; [exact Hinit|].
  apply (proj1 (get_fitness_outcomes Breadth (cfg_eps 2) 2 _ _ verbose_one
                  eq_refl Hinit)).
  right. lia.
Defined.

Lemma Breadth_outputs cfg0 t t' p :
  Bounded_Problem_init Breadth cfg0 t = (t', Ok p) →
  Forall (λ case, case.2 = [1]) (training p).
Proof.
  intros (domain & Hdom & Htab & _)%init_inv. simpl in Hdom.
  apply single_bit_set_inv in Hdom as (n & _ & ->).
  apply table_Forall2 in Htab.
  eapply Forall2_Forall_r; [exact Htab|].
  apply Forall_forall. intros inputs (i & -> & _)%list_elem_of_fmap case [_ Hpf].
  simpl in Hpf. unfold Breadth_problem_function in Hpf.
  rewrite sum_one_hot in Hpf. by injection Hpf as <-.
Qed.

(** X14: Breadth is solved by a constant: on a Breadth instance built with
    a positive [input_length] and a non-negative epsilon, an individual
    that answers [[1]] whatever its input gets fitness 1. *)
Theorem Breadth_constant_answer cfg0 n t p individual :
  cfg0 !! "input_length" = Some (Int n) →
  0 < n →
  Bounded_Problem_init Breadth cfg0 [] = (t, Ok p) →
  (0 ≤ to_float (epsilon p))%Qc →
  (∀ inputs, evaluate individual inputs = [1%Qc]) →
  get_fitness individual p = (p, Ok 1%Qc).
Proof.
  intros Hcfg Hn Hinit Heps Hconst.
  pose proof (instance_nonempty _ _ _ _ _ _ Hcfg Hinit (or_intror Hn)) as Hne.
  pose proof (instance_arity_positive _ _ _ _ _ Hinit) as Hpos.
  rewrite get_fitness_run by done. do 2 f_equal.
  apply (fitness_formula_bounds _ individual p Hne Hpos).
  eapply Forall_impl; [exact (Breadth_outputs _ _ _ _ Hinit)|].
  intros case Hout i a o Ha Ho. rewrite Hconst in Ha. rewrite Hout in Ho.
  destruct i as [|i]; [|done]. injection Ha as <-. injection Ho as <-.
  rewrite Z2Qc_inj_1. replace (1 - 1)%Qc with 0%Qc by ring.
  by rewrite Qcabs_zero.
Qed.

Lemma Breadth_constant_answer_witness :
  cfg_eps 2 !! "input_length" = Some (Int 2) ∧ 0 < 2
  ∧ Bounded_Problem_init Breadth (cfg_eps 2) []
    = ([Call_data_range; Call_problem_function [1; 0]; Call_problem_function [0; 1]],
       Ok Breadth_2)
  ∧ (0 ≤ to_float (epsilon Breadth_2))%Qc
  ∧ (∀ inputs, evaluate constant_one inputs = [1%Qc])
  ∧ get_fitness constant_one Breadth_2 = (Breadth_2, Ok 1%Qc).
Proof.
  assert (Bounded_Problem_init Breadth (cfg_eps 2) []
          = ([Call_data_range; Call_problem_function [1; 0];
              Call_problem_function [0; 1]], Ok Breadth_2)) as Hinit
    by (vm_compute; reflexivity).
  assert (0 ≤ to_float (epsilon Breadth_2))%Qc as Heps by (by vm_compute).
  split; [reflexivity|]. split; [lia|]. split; [exact Hinit|].
  split; [exact Heps|]. split; [reflexivity|].
  exact (Breadth_constant_answer (cfg_eps 2) 2 _ _ constant_one eq_refl
           ltac:(lia) Hinit Heps (λ _, eq_refl)).
Defined.

(** ** More on Flat and Active *)

Section more_flat.

Local Open Scope Qc_scope.

Lemma Flat_counts_le (genes : list (option Z)) :
  (length (filter (λ g, is_negative g) genes) ≤ length (filter is_Some genes))%nat.
Proof.
  induction genes as [|[g|] genes IH]; [done| |].
  - rewrite !filter_cons.
    destruct (decide (is_Some (Some g))) as [_|Hn]; [|by destruct Hn].
    destruct (decide (is_negative (Some g))); simpl; lia.
  - rewrite !filter_cons.
    destruct (decide (is_Some (@None Z))) as [[? ?]|_]; [done|].
    destruct (decide (is_negative None)); [done|]. done.
Qed.

Lemma Flat_counts_eq (genes : list (option Z)) :
  length (filter (λ g, is_negative g) genes) = length (filter is_Some genes)
  ↔ Forall (λ g, is_Some g → is_negative g) genes.
Proof.
  induction genes as [|[g|] genes IH].
  - split; [constructor|done].
  - pose proof (Flat_counts_le genes) as Hle. rewrite !filter_cons.
    destruct (decide (is_Some (Some g))) as [_|Hn]; [|by destruct Hn].
    destruct (decide (is_negative (Some g))) as [Hneg|Hpos]; simpl.
    + rewrite Forall_cons. split.
      * intros Heq. split; [done|]. apply IH. lia.
      * intros [_ Hall]. f_equal. by apply IH.
    + rewrite Forall_cons. split; [lia|].
      intros [Hg _]. destruct Hpos. by apply Hg.
  - rewrite !filter_cons.
    destruct (decide (is_Some (@None Z))) as [[? ?]|_]; [done|].
    destruct (decide (is_negative None)); [done|].
    rewrite Forall_cons, IH. split; [|by intros [_ ?]].
    intros Hall. split; [|done]. by intros [? ?].
Qed.

Lemma Flat_counts_zero (genes : list (option Z)) :
  length (filter (λ g, is_negative g) genes) = 0%nat
  ↔ Forall (λ g, ¬ is_negative g) genes.
Proof.
  induction genes as [|g genes IH].
  - split; [constructor|done].
  - rewrite filter_cons, Forall_cons.
    destruct (decide (is_negative g)) as [Hneg|Hpos]; simpl.
    + split; [lia|]. by intros [? _].
    + rewrite IH. split; [by intros|by intros [_ ?]].
Qed.

Lemma Flat_neg_of_wired (genes : list (option Z)) :
  filter (λ g, is_negative g) (filter is_Some genes)
  = filter (λ g, is_negative g) genes.
Proof.
  induction genes as [|[g|] genes IH]; [done| |].
  - rewrite (filter_cons is_Some).
    destruct (decide (is_Some (Some g))) as [_|Hn]; [|by destruct Hn].
    rewrite !filter_cons. by rewrite IH.
  - rewrite (filter_cons is_Some).
    destruct (decide (is_Some (@None Z))) as [[? ?]|_]; [done|].
    rewrite filter_cons. destruct (decide (is_negative None)); [done|]. done.
Qed.

Lemma Qc_div_one a b : b ≠ 0 → a / b = 1 ↔ a = b.
Proof.
  intros Hb. split.
  - intros Hq. rewrite <-(Qcmult_div_r a b Hb), Hq. apply Qcmult_1_r.
  - intros ->. unfold Qcdiv. by apply Qcmult_inv_r.
Qed.

End more_flat.

(** X15: whenever [Flat.get_fitness] returns, the value lies between 0
    and 1; it is 1 exactly when every gene that is not the no-op marker
    is negative, and 0 exactly when no gene is negative. *)
Theorem Flat_range individual f :
  Flat_get_fitness individual = Ok f →
  (0 ≤ f ∧ f ≤ 1)%Qc
  ∧ (f = 1%Qc ↔ Forall (λ g, is_Some g → is_negative g) (genes individual))
  ∧ (f = 0%Qc ↔ Forall (λ g, ¬ is_negative g) (genes individual)).
Proof.
  unfold Flat_get_fitness. rewrite Flat_loop_counts, !Z.add_0_l.
  unfold py_div. case_bool_decide as Hzero; [done|]. intros [= <-].
  pose proof (Flat_counts_le (genes individual)) as Hle.
  set (a := length (filter (λ g, is_negative g) (genes individual))) in *.
  set (b := length (filter is_Some (genes individual))) in *.
  assert (b ≠ 0)%nat as Hb by (intros E; apply Hzero; rewrite E; apply Z2Qc_inj_0).
  split; [|split].
  - apply Qc_div_bounds.
    + apply Qc_of_nat_nonneg.
    + apply (proj1 (Z2Qc_inj_le _ _)). lia.
    + rewrite <-Z2Qc_inj_0. apply (proj1 (Z2Qc_inj_lt _ _)). lia.
  - rewrite Qc_div_one by done. rewrite Z2Qc_inj_iff, <-Flat_counts_eq.
    fold a b. lia.
  - rewrite Qc_div_zero by done.
    rewrite <-Z2Qc_inj_0, Z2Qc_inj_iff, <-Flat_counts_zero. fold a. lia.
Qed.

Lemma Flat_range_witness :
  Flat_get_fitness constant_one = Ok (Q2Qc (1 # 2))
  ∧ (0 ≤ Q2Qc (1 # 2) ∧ Q2Qc (1 # 2) ≤ 1)%Qc
  ∧ (Q2Qc (1 # 2) = 1%Qc
     ↔ Forall (λ g, is_Some g → is_negative g) (genes constant_one))
  ∧ (Q2Qc (1 # 2) = 0%Qc
     ↔ Forall (λ g, ¬ is_negative g) (genes constant_one)).
Proof.
  assert (Flat_get_fitness constant_one = Ok (Q2Qc (1 # 2))) as Hrun
    by (vm_compute; reflexivity).
  split; [exact Hrun|]. exact (Flat_range constant_one _ Hrun).
Defined.

(** X16: [Flat.get_fitness] depends only on the genes that are not the
    no-op marker, and not on their order: two individuals whose non-no-op
    genes are the same up to order get the same result. *)
Theorem Flat_ignores_noop_and_order individual1 individual2 :
  filter is_Some (genes individual1) ≡ₚ filter is_Some (genes individual2) →
  Flat_get_fitness individual1 = Flat_get_fitness individual2.
Proof.
  intros Hperm. unfold Flat_get_fitness. rewrite !Flat_loop_counts.
  rewrite <-(Flat_neg_of_wired (genes individual1)),
          <-(Flat_neg_of_wired (genes individual2)).
  by rewrite Hperm.
Qed.

Lemma Flat_ignores_noop_and_order_witness :
  filter is_Some (genes constant_one) ≡ₚ filter is_Some (genes two_genes)
  ∧ Flat_get_fitness constant_one = Flat_get_fitness two_genes.
Proof.
  assert (filter is_Some (genes constant_one)
          ≡ₚ filter is_Some (genes two_genes)) as Hperm by apply perm_swap.
  split; [exact Hperm|].
  exact (Flat_ignores_noop_and_order constant_one two_genes Hperm).
Defined.



(** ** [util.diff_count] *)

Section diff_count.

Context {A : Type} `{EqDecision A}.

Implicit Types l : list A.

Lemma foldl_add_acc (acc : Z) (xs : list Z) :
  foldl Z.add acc xs = acc + foldl Z.add 0 xs.
Proof.
  revert acc. induction xs as [|x xs IH]; intros acc; simpl; [lia|].
  rewrite (IH (acc + x)), (IH (0 + x)). lia.
Qed.

Lemma diff_count_nil_l l : diff_count [] l = 0.
Proof. done. Qed.

Lemma diff_count_nil_r l : diff_count l [] = 0.
Proof. by destruct l. Qed.

Lemma diff_count_cons x y l1 l2 :
  diff_count (x :: l1) (y :: l2)
  = (if decide (x ≠ y) then 1 else 0) + diff_count l1 l2.
Proof. unfold diff_count. simpl. by rewrite foldl_add_acc. Qed.

Lemma diff_count_bounds l1 l2 :
  0 ≤ diff_count l1 l2 ≤ Z.min (len l1) (len l2).
Proof.
  unfold len. revert l2. induction l1 as [|x l1 IH]; intros l2.
  - rewrite diff_count_nil_l. simpl. lia.
  - destruct l2 as [|y l2]; [rewrite diff_count_nil_r; simpl; lia|].
    rewrite diff_count_cons. specialize (IH l2). simpl length.
    case_decide; lia.
Qed.

Lemma diff_count_sym l1 l2 : diff_count l1 l2 = diff_count l2 l1.
Proof.
  revert l2. induction l1 as [|x l1 IH]; intros l2.
  - by rewrite diff_count_nil_l, diff_count_nil_r.
  - destruct l2 as [|y l2]; [done|].
    rewrite !diff_count_cons, IH. repeat case_decide; congruence.
Qed.

Lemma diff_count_zero l1 l2 :
  diff_count l1 l2 = 0 ↔ take (length l2) l1 = take (length l1) l2.
Proof.
  revert l2. induction l1 as [|x l1 IH]; intros l2.
  - rewrite diff_count_nil_l. simpl. by rewrite take_nil.
  - destruct l2 as [|y l2]; [by rewrite diff_count_nil_r|].
    rewrite diff_count_cons. simpl.
    pose proof (diff_count_bounds l1 l2) as Hb. split.
    + intros Hz. case_decide as Hxy; [lia|].
      rewrite Hxy. f_equal. apply IH. lia.
    + intros [= -> Htl]. apply IH in Htl. case_decide; [done|lia].
Qed.

Lemma diff_count_triangle_aux l1 l2 l3 :
  length l1 = length l2 → length l2 = length l3 →
  diff_count l1 l3 ≤ diff_count l1 l2 + diff_count l2 l3.
Proof.
  revert l2 l3. induction l1 as [|x l1 IH]; intros l2 l3 H12 H23.
  - rewrite !diff_count_nil_l. pose proof (diff_count_bounds l2 l3). lia.
  - destruct l2 as [|y l2]; [done|]. destruct l3 as [|z l3]; [done|].
    rewrite !diff_count_cons.
    specialize (IH l2 l3 ltac:(by injection H12) ltac:(by injection H23)).
    repeat case_decide; try lia. congruence.
Qed.

End diff_count.

(** X18: [diff_count] is symmetric and lies between 0 and the length of
    the shorter sequence; positions that only one sequence has are not
    counted, so a sequence and any extension of it differ in 0 places. *)
Theorem diff_count_symmetric_bounded (data1 data2 extra : list Z) :
  diff_count data1 data2 = diff_count data2 data1
  ∧ 0 ≤ diff_count data1 data2 ≤ Z.min (len data1) (len data2)
  ∧ diff_count data1 (data1 ++ extra) = 0.
Proof.
  split; [apply diff_count_sym|]. split; [apply diff_count_bounds|].
  apply diff_count_zero. rewrite length_app, take_app_length.
  rewrite take_ge by lia. done.
Qed.

(** X19: [diff_count] is 0 exactly when the two sequences agree on their
    common positions; for sequences of the same length that is exactly
    when they are equal. *)
Theorem diff_count_zero_iff (data1 data2 : list Z) :
  (diff_count data1 data2 = 0
   ↔ take (length data2) data1 = take (length data1) data2)
  ∧ (length data1 = length data2 →
     (diff_count data1 data2 = 0 ↔ data1 = data2)).
Proof.
  split; [apply diff_count_zero|].
  intros Hlen. rewrite diff_count_zero, Hlen, !take_ge by lia. done.
Qed.

Lemma diff_count_zero_iff_witness :
  length [1; 2; 3] = length [1; 2; 3]
  ∧ (diff_count [1; 2; 3] [1; 2; 3] = 0 ↔ [1; 2; 3] = [1; 2; 3]).
Proof.
  split; [reflexivity|].
  exact (proj2 (diff_count_zero_iff [1; 2; 3] [1; 2; 3]) eq_refl).
Defined.

(** X20: on sequences of one length [diff_count] obeys the triangle
    inequality: it is the Hamming distance. *)
Theorem diff_count_triangle (data1 data2 data3 : list Z) :
  length data1 = length data2 → length data2 = length data3 →
  diff_count data1 data3 ≤ diff_count data1 data2 + diff_count data2 data3.
Proof. apply diff_count_triangle_aux. Qed.

Lemma diff_count_triangle_witness :
  length [1; 2; 3] = length [1; 5; 3] ∧ length [1; 5; 3] = length [4; 5; 6]
  ∧ diff_count [1; 2; 3] [4; 5; 6]
    ≤ diff_count [1; 2; 3] [1; 5; 3] + diff_count [1; 5; 3] [4; 5; 6].
Proof.
  split; [reflexivity|]. split; [reflexivity|].
  exact (diff_count_triangle [1; 2; 3] [1; 5; 3] [4; 5; 6] eq_refl eq_refl).
Defined.

(** ** [util.find_median] and [util.median_deviation] *)

Section median.

Local Open Scope Qc_scope.

Lemma sorted_perm data : sorted data ≡ₚ data.
Proof. apply merge_sort_Permutation. Qed.

Lemma sorted_length data : length (sorted data) = length data.
Proof. apply Permutation_length, sorted_perm. Qed.

Lemma sorted_strongly data : StronglySorted Qcle (sorted data).
Proof. apply StronglySorted_merge_sort; apply _. Qed.

Lemma StronglySorted_lookup (l : list Qc) (i j : nat) x y :
  StronglySorted Qcle l → (i ≤ j)%nat →
  l !! i = Some x → l !! j = Some y → x ≤ y.
Proof.
  intros Hsorted. revert i j.
  induction Hsorted as [|z l _ IH Hall]; intros i j Hij Hi Hj; [done|].
  destruct i as [|i], j as [|j]; simpl in *.
  - simplify_eq. apply Qcle_refl.
  - simplify_eq. rewrite Forall_forall in Hall. apply Hall.
    by eapply list_elem_of_lookup_2.
  - lia.
  - apply (IH i j); [lia|done..].
Qed.

Lemma py_index_nat {A} (xs : list A) (i : nat) x :
  xs !! i = Some x → py_index xs (Z.of_nat i) = Ok x.
Proof.
  intros Hx. unfold py_index. cbv zeta.
  rewrite (bool_decide_eq_false_2 (Z.of_nat i < 0)%Z) by lia.
  rewrite (bool_decide_eq_true_2 (0 ≤ Z.of_nat i)%Z) by lia.
  by rewrite Nat2Z.id, Hx.
Qed.

Lemma find_median_nil : find_median [] = Raise IndexError.
Proof. reflexivity. Qed.

Lemma find_median_odd data (k : nat) x :
  length data = (2 * k + 1)%nat →
  sorted data !! k = Some x →
  find_median data = Ok x.
Proof.
  intros Hlen Hx. unfold find_median, len. rewrite Hlen.
  pose proof (Z.div_mod (Z.of_nat (2 * k + 1)) 2 ltac:(lia)) as Hdm.
  pose proof (Z.mod_pos_bound (Z.of_nat (2 * k + 1)) 2 ltac:(lia)) as Hb.
  rewrite bool_decide_eq_true_2 by lia.
  replace (Z.of_nat (2 * k + 1) `div` 2)%Z with (Z.of_nat k) by lia.
  by apply py_index_nat.
Qed.

Lemma find_median_even data (k : nat) lower upper :
  length data = (2 * k + 2)%nat →
  sorted data !! k = Some lower →
  sorted data !! S k = Some upper →
  find_median data = Ok ((upper + lower) / Qc_of_Z 2).
Proof.
  intros Hlen Hlo Hhi. unfold find_median, len. rewrite Hlen.
  pose proof (Z.div_mod (Z.of_nat (2 * k + 2)) 2 ltac:(lia)) as Hdm.
  pose proof (Z.mod_pos_bound (Z.of_nat (2 * k + 2)) 2 ltac:(lia)) as Hb.
  rewrite bool_decide_eq_false_2 by lia.
  replace (Z.of_nat (2 * k + 2) `div` 2)%Z with (Z.of_nat (S k)) by lia.
  rewrite (py_index_nat _ _ _ Hhi). simpl.
  replace (Z.of_nat (S k) - 1)%Z with (Z.of_nat k) by lia.
  by rewrite (py_index_nat _ _ _ Hlo).
Qed.

(** The three shapes of a list: empty, odd length, even length. *)
Lemma median_cases data :
  data = []
  ∨ (∃ k x, length data = (2 * k + 1)%nat ∧ sorted data !! k = Some x
            ∧ find_median data = Ok x)
  ∨ (∃ k lower upper,
       length data = (2 * k + 2)%nat
       ∧ sorted data !! k = Some lower ∧ sorted data !! S k = Some upper
       ∧ lower ≤ upper
       ∧ find_median data = Ok ((upper + lower) / Qc_of_Z 2)).
Proof.
  destruct (Nat.Even_or_Odd (length data)) as [[k Hk]|[k Hk]].
  - destruct k as [|k].
    + left. apply nil_length_inv. lia.
    + right. right.
      destruct (lookup_lt_is_Some_2 (sorted data) k) as [lower Hlo];
        [rewrite sorted_length; lia|].
      destruct (lookup_lt_is_Some_2 (sorted data) (S k)) as [upper Hhi];
        [rewrite sorted_length; lia|].
      exists k, lower, upper. split; [lia|]. split; [done|]. split; [done|].
      split.
      * apply (StronglySorted_lookup (sorted data) k (S k));
          [apply sorted_strongly|lia|done..].
      * apply (find_median_even data k lower upper); [lia|done..].
  - right. left.
    destruct (lookup_lt_is_Some_2 (sorted data) k) as [x Hx];
      [rewrite sorted_length; lia|].
    exists k, x. split; [lia|]. split; [done|].
    apply (find_median_odd data k x); [lia|done].
Qed.

Lemma Qc_two_pos : 0 < Qc_of_Z 2.
Proof. rewrite <-Z2Qc_inj_0. by apply (proj1 (Z2Qc_inj_lt _ _)). Qed.

Lemma Qc_half_double x : (x + x) / Qc_of_Z 2 = x.
Proof.
  replace (x + x) with (x * Qc_of_Z 2) by (rewrite Z2Qc_inj_2; ring).
  apply Qcdiv_mult_l. apply not_eq_sym, Qclt_not_eq, Qc_two_pos.
Qed.

Lemma Qc_half_le a b c d :
  a ≤ c → b ≤ d → (a + b) / Qc_of_Z 2 ≤ (c + d) / Qc_of_Z 2.
Proof.
  intros Hac Hbd. unfold Qcdiv. apply Qcmult_le_compat_r.
  - by apply Qcplus_le_compat.
  - apply Qclt_le_weak, Qcinv_pos, Qc_two_pos.
Qed.

Lemma Qc_mean_between lower upper :
  lower ≤ upper →
  lower ≤ (upper + lower) / Qc_of_Z 2 ∧ (upper + lower) / Qc_of_Z 2 ≤ upper.
Proof.
  intros Hle. split.
  - rewrite <-(Qc_half_double lower) at 1.
    apply Qc_half_le; [done|apply Qcle_refl].
  - rewrite <-(Qc_half_double upper) at 2.
    apply Qc_half_le; [apply Qcle_refl|done].
Qed.

Lemma sorted_elem data i x : sorted data !! i = Some x → x ∈ data.
Proof.
  intros Hx. rewrite <-(sorted_perm data). by eapply list_elem_of_lookup_2.
Qed.







Lemma find_median_between data :
  data ≠ [] →
  ∃ m x y, find_median data = Ok m ∧ x ∈ data ∧ y ∈ data ∧ x ≤ m ∧ m ≤ y.
Proof.
  intros Hne.
  destruct (median_cases data)
    as [->|[(k & x & _ & Hx & Hm)|(k & lo & hi & _ & Hlo & Hhi & Hle & Hm)]];
    [done| |].
  - exists x, x, x. split; [done|].
    split; [by eapply sorted_elem|]. split; [by eapply sorted_elem|].
    split; apply Qcle_refl.
  - eexists _, lo, hi. split; [done|].
    split; [by eapply sorted_elem|]. split; [by eapply sorted_elem|].
    by apply Qc_mean_between.
Qed.

End median.



(** X22: [find_median] does not depend on the order of the data: two
    sequences with the same elements in any order have the same median. *)
Theorem find_median_permutation data1 data2 :
  data1 ≡ₚ data2 → find_median data1 = find_median data2.
Proof.
  intros Hperm. unfold find_median.
  assert (sorted data1 = sorted data2) as ->.
  { apply (Sorted_unique Qcle).
    - apply Sorted_merge_sort; apply _.
    - apply Sorted_merge_sort; apply _.
    - by rewrite !sorted_perm. }
  unfold len. by rewrite (Permutation_length Hperm).
Qed.

Lemma find_median_permutation_witness :
  sample_odd ≡ₚ [Qc_of_Z 1; Qc_of_Z 5; Qc_of_Z 3]
  ∧ find_median sample_odd = find_median [Qc_of_Z 1; Qc_of_Z 5; Qc_of_Z 3].
Proof.
  assert (sample_odd ≡ₚ [Qc_of_Z 1; Qc_of_Z 5; Qc_of_Z 3]) as Hperm
    by apply perm_swap.
  split; [exact Hperm|]. exact (find_median_permutation _ _ Hperm).
Defined.





(** X25: [median_deviation] raises [IndexError] on empty data, also when
    the median is passed in; on non-empty data it returns the median (the
    one passed in, if any, else [find_median] of the data) together with
    a deviation that is never negative. *)
Theorem median_deviation_defined data median :
  (data = [] → median_deviation data median = Raise IndexError)
  ∧ (data ≠ [] →
     ∃ m d, median_deviation data median = Ok (m, d)
            ∧ (0 ≤ d)%Qc
            ∧ (median = None → find_median data = Ok m)
            ∧ (∀ given, median = Some given → m = given)).
Proof.
  split.
  - intros ->. by destruct median.
  - intros Hne.
    assert (∃ m, match median with
                 | None => find_median data
                 | Some given => Ok given
                 end = Ok m) as [m Hmed].
    { destruct median as [given|]; [by eexists|].
      destruct (find_median_between data Hne) as (m & _ & _ & Hm & _).
      by exists m. }
    destruct (find_median_between ((λ x, Qcabs (x - m)) <$> data))
      as (d & x & _ & Hd & Hx & _ & Hxd & _).
    { by destruct data. }
    exists m, d. unfold median_deviation. rewrite Hmed. simpl. rewrite Hd.
    split; [done|]. split.
    + apply list_elem_of_fmap in Hx as (z & -> & _).
      apply Qcle_trans with (Qcabs (z - m)); [apply Qcabs_nonneg|done].
    + split.
      * intros ->. done.
      * intros given ->. by injection Hmed.
Qed.

Lemma median_deviation_defined_witness :
  sample_odd ≠ []
  ∧ ∃ m d, median_deviation sample_odd None = Ok (m, d)
           ∧ (0 ≤ d)%Qc
           ∧ (@None Qc = None → find_median sample_odd = Ok m)
           ∧ (∀ given, @None Qc = Some given → m = given).
Proof.
  assert (sample_odd ≠ []) as Hne by discriminate.
  split; [exact Hne|].
  exact (proj2 (median_deviation_defined sample_odd None) Hne).
Defined.

(** ** [util.load_configurations] *)

Section load.

Variable file_method : string → result (gmap string value).

Lemma load_loop_ok filenames loaded acc :
  Forall2 (λ filename d, file_method filename = Ok d) filenames loaded →
  load_loop file_method filenames acc
  = Ok (foldl (λ result d, d ∪ result) acc loaded).
Proof.
  intros Hall. revert acc.
  induction Hall as [|filename d filenames loaded Hd _ IH]; intros acc;
    simpl; [done|].
  rewrite Hd. simpl. apply IH.
Qed.

Lemma load_loop_error good bad rest loaded e acc :
  Forall2 (λ filename d, file_method filename = Ok d) good loaded →
  file_method bad = Raise e →
  load_loop file_method (good ++ bad :: rest) acc = Raise e.
Proof.
  intros Hall Hbad. revert acc.
  induction Hall as [|filename d filenames loaded Hd _ IH]; intros acc; simpl.
  - by rewrite Hbad.
  - rewrite Hd. simpl. apply IH.
Qed.

Lemma update_all_lookup (loaded : list (gmap string value)) acc k v :
  foldl (λ result d, d ∪ result) acc loaded !! k = Some v
  ↔ (∃ i d, loaded !! i = Some d ∧ d !! k = Some v
            ∧ ∀ j d', (i < j)%nat → loaded !! j = Some d' → d' !! k = None)
    ∨ (acc !! k = Some v ∧ Forall (λ d, d !! k = None) loaded).
Proof.
  induction loaded as [|d loaded IH] using rev_ind.
  - simpl. split.
    + intros Hacc. right. by split.
    + intros [(i & d & Hi & _)|[Hacc _]]; [by destruct i|done].
  - rewrite foldl_app. simpl. rewrite lookup_union_Some_raw, IH. split.
    + intros [Hd|[Hnone [(i & d0 & Hi & Hk & Hlater)|[Hacc Hall]]]].
      * left. exists (length loaded), d. split; [apply list_lookup_middle; done|].
        split; [done|]. intros j d' Hj Hlook.
        apply lookup_lt_Some in Hlook. rewrite length_app in Hlook.
        simpl in Hlook. lia.
      * left. exists i, d0. split; [by apply lookup_app_l_Some|].
        split; [done|]. intros j d' Hj Hlook.
        apply lookup_app_Some in Hlook as [Hlook|[Hge Hlook]].
        -- by apply (Hlater j).
        -- destruct (j - length loaded)%nat; [|by destruct n].
           simpl in Hlook. by simplify_eq.
      * right. split; [done|]. rewrite Forall_app, Forall_singleton. done.
    + intros [(i & d0 & Hi & Hk & Hlater)|[Hacc Hall]].
      * apply lookup_app_Some in Hi as [Hi|[Hge Hi]].
        -- right. split.
           ++ apply (Hlater (length loaded)).
              ** by apply lookup_lt_Some in Hi.
              ** by apply list_lookup_middle.
           ++ left. exists i, d0. split; [done|]. split; [done|].
              intros j d' Hj Hlook. apply (Hlater j); [done|].
              by apply lookup_app_l_Some.
        -- destruct (i - length loaded)%nat; [|by destruct n].
           simpl in Hi. simplify_eq. by left.
      * rewrite Forall_app, Forall_singleton in Hall.
        destruct Hall as [Hall Hd]. right. split; [done|]. right. by split.
Qed.

End load.

(** X26: when every file loads, [load_configurations] returns one
    dictionary in which each key has the value given by the last file of
    the list that defines it, and has no value when no file defines it. *)
Theorem load_configurations_last_wins file_method filenames loaded :
  Forall2 (λ filename d, file_method filename = Ok d) filenames loaded →
  ∃ result,
    load_configurations file_method filenames = Ok result
    ∧ ∀ k v,
        result !! k = Some v
        ↔ ∃ i d, loaded !! i = Some d ∧ d !! k = Some v
                 ∧ ∀ j d', (i < j)%nat → loaded !! j = Some d' →
                           d' !! k = None.
Proof.
  intros Hall. eexists. split; [by apply load_loop_ok|].
  intros k v. rewrite update_all_lookup. split.
  - by intros [?|[? _]].
  - by left.
Qed.

Lemma load_configurations_last_wins_witness :
  Forall2 (λ filename d, sample_files filename = Ok d)
          ["base.json"; "override.json"] sample_loaded
  ∧ ∃ result,
      load_configurations sample_files ["base.json"; "override.json"]
      = Ok result
      ∧ ∀ k v,
          result !! k = Some v
          ↔ ∃ i d, sample_loaded !! i = Some d ∧ d !! k = Some v
                   ∧ ∀ j d', (i < j)%nat → sample_loaded !! j = Some d' →
                             d' !! k = None.
Proof.
  assert (Forall2 (λ filename d, sample_files filename = Ok d)
            ["base.json"; "override.json"] sample_loaded) as Hall
    by (repeat constructor).
  split; [exact Hall|].
  exact (load_configurations_last_wins sample_files _ _ Hall).
Defined.

(** X27: when a file cannot be loaded, [load_configurations] raises the
    exception of the first such file; the files after it are not looked
    at and no partial dictionary is returned. *)
Theorem load_configurations_first_error file_method good bad rest loaded e :
  Forall2 (λ filename d, file_method filename = Ok d) good loaded →
  file_method bad = Raise e →
  load_configurations file_method (good ++ bad :: rest) = Raise e.
Proof. apply load_loop_error. Qed.

Lemma load_configurations_first_error_witness :
  Forall2 (λ filename d, sample_files filename = Ok d)
          ["base.json"] (take 1 sample_loaded)
  ∧ sample_files "broken.json" = Raise ValueError
  ∧ load_configurations sample_files
      (["base.json"] ++ "broken.json" :: ["override.json"])
    = Raise ValueError.
Proof.
  assert (Forall2 (λ filename d, sample_files filename = Ok d)
            ["base.json"] (take 1 sample_loaded))
    as Hall by (repeat constructor).
  split; [exact Hall|]. split; [reflexivity|].
  exact (load_configurations_first_error sample_files _ "broken.json"
           ["override.json"] _ ValueError Hall eq_refl).
Defined.
